(** * Gazette watcher backend: a shallow embedding of [main.py]

    The backend scrapes the gazette listing page, stores the postings it
    has not seen yet and relays unnotified postings to a Telegram chat.

    The embedding follows [main.py] function by function.  Everything the
    program reaches through a library call (the gazette site, the HTML
    parser, the Telegram endpoint, the system clock) is an oracle of the
    environment record [Env]; the mutable part of the process (the
    [gazettepost] collection and the record of what was sent) is threaded
    explicitly as a [State]. *)

From stdpp Require Import base option list sorting gmap strings pretty.
From Stdlib Require Import ZArith Lia.

Local Open Scope Z_scope.
Local Open Scope string_scope.
Local Open Scope list_scope.

(** ** Errors

    [HTTPException] is FastAPI's exception; [RequestException] stands for
    the transport-level exceptions of [requests] (connection error,
    timeout, ...), all of which derive from Python's [Exception]. *)

Inductive Exn :=
| HTTPException (status_code : Z) (detail : string)
| RequestException (msg : string).

Inductive result (A : Type) :=
| Ok (a : A)
| Raise (e : Exn).
Arguments Ok {A} a.
Arguments Raise {A} e.

(** [try: body except Exception: handler] *)
Definition try_except {A} (body : result A) (handler : Exn -> result A) : result A :=
  match body with
  | Ok a => Ok a
  | Raise e => handler e
  end.

(** What [requests.get] / [requests.post] hand back: a response with its
    status code and body, or a raised transport exception. *)
Record Response := mkResponse { status_code : Z; text : string }.

(** ** Strings

    A [string] holds the UTF-8 encoding of a Python [str], byte by byte.
    Equality, [startswith], [in] and emptiness of two [str] are those of
    their encodings. *)

(** [needle in hay] *)
Fixpoint contains (needle hay : string) : bool :=
  String.prefix needle hay ||
  match hay with
  | EmptyString => false
  | String _ hay' => contains needle hay'
  end.

(** The white space of Python ([str.isspace], what [str.strip()] removes),
    by the length of its encoding.  One byte: U+0009 to U+000D, U+001C to
    U+001F and U+0020. *)
Definition space1 (c : Ascii.ascii) : bool :=
  let n := Ascii.nat_of_ascii c in
  ((9 <=? n) && (n <=? 13) || (28 <=? n) && (n <=? 32))%nat.

(** Two bytes: U+0085 (C2 85) and U+00A0 (C2 A0). *)
Definition space2 (c1 c2 : Ascii.ascii) : bool :=
  let n1 := Ascii.nat_of_ascii c1 in
  let n2 := Ascii.nat_of_ascii c2 in
  ((n1 =? 194) && ((n2 =? 133) || (n2 =? 160)))%nat.

(** Three bytes: U+1680 (E1 9A 80), U+2000 to U+200A (E2 80 80 to
    E2 80 8A), U+2028 and U+2029 (E2 80 A8, E2 80 A9), U+202F (E2 80 AF),
    U+205F (E2 81 9F) and U+3000 (E3 80 80). *)
Definition space3 (c1 c2 c3 : Ascii.ascii) : bool :=
  let n1 := Ascii.nat_of_ascii c1 in
  let n2 := Ascii.nat_of_ascii c2 in
  let n3 := Ascii.nat_of_ascii c3 in
  ((n1 =? 225) && (n2 =? 154) && (n3 =? 128)
   || (n1 =? 226) && (n2 =? 128) &&
      ((128 <=? n3) && (n3 <=? 138) || (n3 =? 168) || (n3 =? 169) || (n3 =? 175))
   || (n1 =? 226) && (n2 =? 129) && (n3 =? 159)
   || (n1 =? 227) && (n2 =? 128) && (n3 =? 128))%nat.

(** Drop from the front every character that [sp1], [sp2] or [sp3]
    recognises by its one, two or three bytes. *)
Fixpoint lstrip_by (sp1 : Ascii.ascii -> bool) (sp2 : Ascii.ascii -> Ascii.ascii -> bool)
    (sp3 : Ascii.ascii -> Ascii.ascii -> Ascii.ascii -> bool) (s : string) : string :=
  match s with
  | EmptyString => EmptyString
  | String c1 s1 =>
      if sp1 c1 then lstrip_by sp1 sp2 sp3 s1
      else
        match s1 with
        | EmptyString => s
        | String c2 s2 =>
            if sp2 c1 c2 then lstrip_by sp1 sp2 sp3 s2
            else
              match s2 with
              | EmptyString => s
              | String c3 s3 =>
                  if sp3 c1 c2 c3 then lstrip_by sp1 sp2 sp3 s3 else s
              end
        end
  end.

(** [str.lstrip()] *)
Definition lstrip (s : string) : string := lstrip_by space1 space2 space3 s.

(** [str.rstrip()]: on the reversed string the bytes of a character come
    last byte first. *)
Definition rstrip (s : string) : string :=
  String.rev
    (lstrip_by space1 (fun c2 c1 => space2 c1 c2) (fun c3 c2 c1 => space3 c1 c2 c3)
       (String.rev s)).

(** [str.strip()] *)
Definition strip (s : string) : string := rstrip (lstrip s).

(** Python truthiness of a [str]: the empty string is falsy. *)
Definition truthy (s : string) : bool := negb (String.eqb s "").

(** ** The parsed page

    [BeautifulSoup(r.text, "html.parser")] yields a tree of tags and
    strings; [attrs] is the tag's attribute dictionary. *)

#[warnings="-register-all"] Inductive Node :=
| NavigableString (s : string)
| Tag (name : string) (attrs : gmap string string) (contents : list Node).

Definition Soup := list Node.

(** [tag.get(key)] *)
Definition get (n : Node) (key : string) : option string :=
  match n with
  | Tag _ attrs _ => attrs !! key
  | NavigableString _ => None
  end.

Definition tag_name (n : Node) : option string :=
  match n with
  | Tag name _ _ => Some name
  | NavigableString _ => None
  end.

(** The strings below a node, in document order. *)
Fixpoint strings (n : Node) : list string :=
  match n with
  | NavigableString s => [s]
  | Tag _ _ contents =>
      (fix go (cs : list Node) : list string :=
         match cs with
         | [] => []
         | c :: cs' => strings c ++ go cs'
         end) contents
  end.

(** [tag.get_text(strip=True)]: every string below the tag is stripped,
    the empty ones are dropped, the rest is joined without separator. *)
Definition get_text (n : Node) : string :=
  String.concat "" (filter (fun s => truthy s = true) (strip <$> strings n)).

(** The tags of a subtree in document order, each paired with the flag
    "has an [li] ancestor". *)
Fixpoint tags_under (under_li : bool) (n : Node) : list (bool * Node) :=
  match n with
  | NavigableString _ => []
  | Tag name _ contents =>
      (under_li, n) ::
      (fix go (cs : list Node) : list (bool * Node) :=
         match cs with
         | [] => []
         | c :: cs' => tags_under (under_li || String.eqb name "li") c ++ go cs'
         end) contents
  end.

Definition all_tags (soup : Soup) : list (bool * Node) :=
  flat_map (tags_under false) soup.

Definition is_anchor (n : Node) : bool :=
  match tag_name n with
  | Some name => String.eqb name "a"
  | None => false
  end.

Definition href_starts_with (pre : string) (n : Node) : bool :=
  match get n "href" with
  | Some h => String.prefix pre h
  | None => false
  end.

(** [soup.select('a[href^="/iulaan/view/"]')] *)
Definition select_a_href_prefix (pre : string) (soup : Soup) : list Node :=
  snd <$> filter (fun bn => is_anchor bn.2 && href_starts_with pre bn.2 = true)
                 (all_tags soup).

(** [soup.select("li a")]: the anchors that have an [li] ancestor. *)
Definition select_li_a (soup : Soup) : list Node :=
  snd <$> filter (fun bn => bn.1 && is_anchor bn.2 = true) (all_tags soup).

(** ** Posts as scraped: the dict [{"title": ..., "url": ...}] *)

Record Post := mkPost { title : string; url : string }.

Global Instance Post_eq_dec : EqDecision Post.
Proof. solve_decision. Defined.

Definition DETAIL_PATH : string := "/iulaan/view/".
Definition ORIGIN : string := "https://gazette.gov.mv".

(** [href if href.startswith("http") else f"https://gazette.gov.mv{href}"] *)
Definition absolute_url (href : string) : string :=
  if String.prefix "http" href then href else ORIGIN +:+ href.

(** [any(p["url"] == url for p in posts)] *)
Definition any_url (u : string) (posts : list Post) : bool :=
  existsb (fun p => String.eqb (url p) u) posts.

(** [if not any(...): posts.append({"title": title, "url": url})] *)
Definition append_unless_seen (posts : list Post) (t u : string) : list Post :=
  if any_url u posts then posts else posts ++ [mkPost t u].

(** Body of the primary loop, for one selected anchor. *)
Definition primary_step (posts : list Post) (a : Node) : list Post :=
  let t := get_text a in
  match get a "href" with
  | None => posts
  | Some href =>
      if negb (truthy t) || negb (truthy href) then posts
      else append_unless_seen posts t (absolute_url href)
  end.

(** Body of the fallback loop, for one selected anchor. *)
Definition fallback_step (posts : list Post) (li : Node) : list Post :=
  let t := get_text li in
  match get li "href" with
  | None => posts
  | Some href =>
      if truthy href && truthy t && contains DETAIL_PATH href
      then append_unless_seen posts t (absolute_url href)
      else posts
  end.

Definition primary_posts (soup : Soup) : list Post :=
  foldl primary_step [] (select_a_href_prefix DETAIL_PATH soup).

Definition fallback_posts (soup : Soup) : list Post :=
  foldl fallback_step [] (select_li_a soup).

(** Everything after [soup = BeautifulSoup(...)] in [fetch_gazette_posts]. *)
Definition extract_posts (soup : Soup) : list Post :=
  let posts := primary_posts soup in
  match posts with
  | [] => foldl fallback_step posts (select_li_a soup)
  | _ :: _ => posts
  end.

(** ** The stored documents

    A document of the [gazettepost] collection.  The collection is a list
    in insertion order and a document's [_id] is its position: the id is
    opaque to the program, unique, and never reused since nothing is ever
    deleted.  [doc_title] and [doc_url] are optional because the program
    reads them with [d.get(...)]. *)

Record Doc := mkDoc {
  doc_title : option string;
  doc_url : option string;
  notified : bool;
  created_at : Z;
  updated_at : option Z;
}.

Global Instance Doc_eq_dec : EqDecision Doc.
Proof. solve_decision. Defined.

(** A document as a query returns it: its [_id] and its fields. *)
Abbreviation Found := (nat * Doc)%type.

(** ** Telegram *)

Record TelegramConfig := mkTelegramConfig { bot_token : string; chat_id : string }.

(** The arguments of one [requests.post] call: the URL and the JSON payload. *)
Record Request := mkRequest {
  req_url : string;
  req_chat_id : string;
  req_text : string;
  req_disable_web_page_preview : bool;
}.

Global Instance Request_eq_dec : EqDecision Request.
Proof. solve_decision. Defined.

(** ** Environment and state *)

(** What a library call into the network comes back with. *)
Inductive Outcome :=
| Responded (r : Response)
| Failed (msg : string).

Record Env := mkEnv {
  (** the answer to the k-th [requests.get(GAZETTE_URL, ...)] *)
  gazette_site : nat -> Outcome;
  (** [BeautifulSoup(text, "html.parser")] *)
  html_parser : string -> Soup;
  (** the answer to a [requests.post], given the requests made before it *)
  telegram_api : list Request -> Request -> Outcome;
  (** the k-th reading of the clock *)
  clock : nat -> Z;
}.

Record State := mkState {
  (** the module-level [db]: [None] when no database is configured,
      otherwise the content of [db["gazettepost"]] *)
  db : option (list Doc);
  (** the requests handed to [requests.post] so far, oldest first *)
  posted : list Request;
  (** how many [requests.get] calls were made *)
  gets : nat;
  (** how many times the clock was read *)
  ticks : nat;
}.

Definition set_db (f : list Doc -> list Doc) (s : State) : State :=
  mkState (f <$> db s) (posted s) (gets s) (ticks s).

(** Computations that read and change the state and may raise. *)
Definition M (A : Type) : Type := State -> result A * State.

Definition ret {A} (a : A) : M A := fun s => (Ok a, s).
Definition raise {A} (e : Exn) : M A := fun s => (Raise e, s).
Definition bind {A B} (m : M A) (k : A -> M B) : M B :=
  fun s =>
    match m s with
    | (Ok a, s') => k a s'
    | (Raise e, s') => (Raise e, s')
    end.

Declare Scope prog_scope.
Delimit Scope prog_scope with prog.
Notation "x <- m ;; k" := (bind m (fun x => k))
  (at level 100, m at next level, right associativity) : prog_scope.

(** [requests.get(GAZETTE_URL, headers=headers, timeout=20)] *)
Definition requests_get (env : Env) : M Response :=
  fun s =>
    let s' := mkState (db s) (posted s) (S (gets s)) (ticks s) in
    match gazette_site env (gets s) with
    | Responded r => (Ok r, s')
    | Failed msg => (Raise (RequestException msg), s')
    end.

(** [requests.post(url, json=payload, timeout=20)] *)
Definition requests_post (env : Env) (req : Request) : M Response :=
  fun s =>
    let s' := mkState (db s) (posted s ++ [req]) (gets s) (ticks s) in
    match telegram_api env (posted s) req with
    | Responded r => (Ok r, s')
    | Failed msg => (Raise (RequestException msg), s')
    end.

(** [time.time()] *)
Definition time_time (env : Env) : M Z :=
  fun s => (Ok (clock env (ticks s)),
            mkState (db s) (posted s) (gets s) (S (ticks s))).

(** ** The storage helpers of [database.py] and the driver calls *)

(** Modelled from the spec: [database.get_documents(collection, {})] is
    not in [main.py]; it "reads all stored posts". *)
Definition get_documents (docs : list Doc) : list Found :=
  imap (fun i d => (i, d)) docs.

(** Modelled from the spec: [database.create_document(collection, data)]
    is not in [main.py]; the storage layer assigns the identifier (the next
    position) and stamps [created_at] / [updated_at] on insert. *)
Definition create_document (t u : string) (n : bool) (now : Z)
    (docs : list Doc) : list Doc :=
  docs ++ [mkDoc (Some t) (Some u) n now (Some now)].

(** [.sort("created_at", -1)]: [x] may come before [y]. *)
Definition created_desc (x y : Found) : Prop := created_at y.2 <= created_at x.2.

Global Instance created_desc_dec : RelDecision created_desc.
Proof. intros x y. unfold created_desc. apply _. Defined.

(** [db["gazettepost"].find({"notified": False}).sort("created_at", -1).limit(n)] *)
Definition find_unnotified (n : nat) (docs : list Doc) : list Found :=
  take n (merge_sort created_desc
            (filter (fun d : Found => notified d.2 = false) (get_documents docs))).

(** [update_one({"_id": i}, {"$set": {"notified": True, "updated_at": now}})] *)
Definition mark_notified (now : Z) (d : Doc) : Doc :=
  mkDoc (doc_title d) (doc_url d) true (created_at d) (Some now).

Definition update_one (i : nat) (now : Z) (docs : list Doc) : list Doc :=
  alter (mark_notified now) i docs.

(** ** [fetch_gazette_posts] *)

Definition fetch_gazette_posts (env : Env) : M (list Post) :=
  (r <- requests_get env ;;
   if negb (status_code r =? 200)%Z
   then raise (HTTPException 502 ("Gazette returned status " +:+ pretty (status_code r)))
   else ret (extract_posts (html_parser env (text r))))%prog.

(** ** [store_new_posts] *)

(** [{doc.get("url") for doc in existing}] *)
Definition existing_urls_of (existing : list Found) : gset (option string) :=
  list_to_set ((fun d : Found => doc_url d.2) <$> existing).

(** One turn of the [for p in posts] loop; the accumulator is the state
    and [new_posts]. *)
Definition store_step (env : Env) (existing_urls : gset (option string))
    (acc : State * list Post) (p : Post) : State * list Post :=
  let '(s, new_posts) := acc in
  if decide (Some (url p) ∉ existing_urls) then
    let now := clock env (ticks s) in
    (mkState (create_document (title p) (url p) false now <$> db s)
             (posted s) (gets s) (S (ticks s)),
     new_posts ++ [p])
  else (s, new_posts).

Definition store_new_posts (env : Env) (posts : list Post) : M (list Post) :=
  fun s =>
    match db s with
    | None => (Raise (HTTPException 500 "Database not configured"), s)
    | Some docs =>
        let existing := get_documents docs in
        let existing_urls := existing_urls_of existing in
        let '(s', new_posts) := foldl (store_step env existing_urls) (s, []) posts in
        (Ok new_posts, s')
    end.

(** ** [send_telegram_message] *)

Definition send_telegram_message (env : Env) (bot_token chat_id text : string) : M bool :=
  fun s =>
    let url := "https://api.telegram.org/bot" +:+ bot_token +:+ "/sendMessage" in
    let payload := mkRequest url chat_id text true in
    let '(res, s') := requests_post env payload s in
    (try_except
       match res with
       | Ok res => Ok (status_code res =? 200)%Z
       | Raise e => Raise e
       end
       (fun _ => Ok false),
     s').

(** ** The endpoints *)

Record FetchReply := mkFetchReply {
  fetched : nat;
  new : nat;
  new_posts : list Post;
}.

Definition api_fetch (env : Env) : M FetchReply :=
  (posts <- fetch_gazette_posts env ;;
   new_posts <- store_new_posts env posts ;;
   ret (mkFetchReply (length posts) (length new_posts) new_posts))%prog.

Definition NEWLINE : string := String (Ascii.ascii_of_nat 10) EmptyString.

(** The [for d in reversed(docs)] loop with its [break]; [sent] is the
    running counter. *)
Fixpoint notify_loop (env : Env) (cfg : TelegramConfig) (ds : list Found)
    (sent : nat) : M nat :=
  match ds with
  | [] => ret sent
  | d :: ds' =>
      let title := default "New Gazette Post" (doc_title d.2) in
      let url := default "" (doc_url d.2) in
      (ok <- send_telegram_message env (bot_token cfg) (chat_id cfg)
               (title +:+ NEWLINE +:+ url) ;;
       if ok : bool then
         (now <- time_time env ;;
          fun s => notify_loop env cfg ds' (S sent) (set_db (update_one d.1 now) s))
       else ret sent)%prog
  end.

Definition api_notify (env : Env) (cfg : TelegramConfig) : M nat :=
  fun s =>
    match db s with
    | None => (Raise (HTTPException 500 "Database not configured"), s)
    | Some stored =>
        let docs := find_unnotified 20 stored in
        match docs with
        | [] => (Ok 0%nat, s)
        | _ :: _ => notify_loop env cfg (reverse docs) 0 s
        end
    end.

(** ** Vocabulary of the statements *)

(** The post an anchor contributes in the primary loop, if it is not skipped. *)
Definition primary_candidate (a : Node) : option Post :=
  match get a "href" with
  | Some href =>
      if truthy (get_text a) && truthy href
      then Some (mkPost (get_text a) (absolute_url href))
      else None
  | None => None
  end.

(** The post an anchor contributes in the fallback loop, if it is kept. *)
Definition fallback_candidate (a : Node) : option Post :=
  match get a "href" with
  | Some href =>
      if truthy href && truthy (get_text a) && contains DETAIL_PATH href
      then Some (mkPost (get_text a) (absolute_url href))
      else None
  | None => None
  end.

(** What either loop does with a candidate post it did not skip. *)
Definition add_post (posts : list Post) (c : Post) : list Post :=
  append_unless_seen posts (title c) (url c).

(** The posts the page offers in document order, before de-duplication:
    those of the primary selector, or those of the fallback selector when
    the primary one offers none. *)
Definition candidates (soup : Soup) : list Post :=
  match omap primary_candidate (select_a_href_prefix DETAIL_PATH soup) with
  | [] => omap fallback_candidate (select_li_a soup)
  | c :: cs => c :: cs
  end.

(** First occurrence wins: an entry is kept exactly when no entry before
    it in the list has its URL. *)
Definition first_occurrences (cands : list Post) : list Post :=
  snd <$> filter (fun ic : nat * Post => url ic.2 ∉ url <$> take ic.1 cands)
                 (imap (fun i c => (i, c)) cands).

(** The URLs the collection holds, as [doc.get("url")] reads them. *)
Definition stored_urls (docs : list Doc) : list (option string) :=
  doc_url <$> docs.

(** The document [store_new_posts] creates for a post at time [now]. *)
Definition new_doc (p : Post) (now : Z) : Doc :=
  mkDoc (Some (title p)) (Some (url p)) false now (Some now).

(** The message text and the request [api_notify] builds for a document. *)
Definition notification_text (d : Found) : string :=
  default "New Gazette Post" (doc_title d.2) +:+ NEWLINE +:+ default "" (doc_url d.2).

Definition request_for (cfg : TelegramConfig) (d : Found) : Request :=
  mkRequest ("https://api.telegram.org/bot" +:+ bot_token cfg +:+ "/sendMessage")
            (chat_id cfg) (notification_text d) true.

(** What [send_telegram_message] returns for the message of [d] when the
    requests [hist] were made before it. *)
Definition notifier_reply (env : Env) (cfg : TelegramConfig)
    (hist : list Request) (d : Found) : result bool :=
  (send_telegram_message env (bot_token cfg) (chat_id cfg) (notification_text d)
     (mkState None hist 0 0)).1.

(** The collection after the documents [ds] were marked notified one
    after the other, the first at clock reading number [t]. *)
Fixpoint marked (env : Env) (t : nat) (ds : list Found) (stored : list Doc) : list Doc :=
  match ds with
  | [] => stored
  | d :: ds' => marked env (S t) ds' (update_one d.1 (clock env t) stored)
  end.

(** ** The rest of [main.py] *)

(** [try: body except Exception: handler], for a computation on the state. *)
Definition try_except_M {A} (body : M A) (handler : Exn -> M A) : M A :=
  fun s =>
    match body s with
    | (Ok a, s') => (Ok a, s')
    | (Raise e, s') => handler e s'
    end.

(** One turn of the [while True] loop of [_scheduler_loop]: the [try]
    block with its [except Exception: pass].  The [asyncio.sleep] calls
    around it only let time pass. *)
Definition scheduler_cycle (env : Env) : M unit :=
  try_except_M
    (posts <- fetch_gazette_posts env ;;
     _ <- store_new_posts env posts ;;
     ret tt)%prog
    (fun _ => ret tt).

(** The first [n] turns of the loop, which itself never returns. *)
Fixpoint scheduler_loop (env : Env) (n : nat) : M unit :=
  match n with
  | O => ret tt
  | S n' => (_ <- scheduler_cycle env ;; scheduler_loop env n')%prog
  end.






(** The string is empty or begins with a character that is not white
    space. *)
Definition no_leading_space (s : string) : Prop :=
  match s with
  | EmptyString => True
  | String c _ => Ascii.is_space c = false
  end.

(** The provider confirms every message, whatever was sent before. *)
Definition always_confirms (env : Env) : Prop :=
  ∀ hist req, ∃ r, telegram_api env hist req = Responded r ∧ status_code r = 200.

(** The unnotified documents of a collection, with their identifiers. *)
Definition unnotified (docs : list Doc) : list Found :=
  filter (fun d : Found => notified d.2 = false) (get_documents docs).

(** How many documents of a collection are marked notified. *)
Definition notified_count (docs : list Doc) : nat :=
  length (filter (fun d => notified d = true) docs).

(** ** A small scenario

    Concrete pages, environments and states on which the statements below
    are exercised. *)

Definition demo_anchor (href t : string) : Node :=
  Tag "a" {["href" := href]} [NavigableString t].

(** Two postings, the first one linked twice. *)
Definition demo_page : Soup :=
  [Tag "html" ∅
     [Tag "body" ∅
        [demo_anchor "/iulaan/view/1" " Title A ";
         Tag "div" ∅
           [demo_anchor "/iulaan/view/2" "Title B";
            demo_anchor "/iulaan/view/1" "Title A again"]]]].


(** The provider confirms the first message it ever receives and answers
    500 to every later one. *)
Definition demo_flaky_telegram (hist : list Request) (_ : Request) : Outcome :=
  Responded (mkResponse (if decide (hist = []) then 200 else 500) "").

Definition demo_env : Env :=
  mkEnv (fun _ => Responded (mkResponse 200 "<html>"))
        (fun _ => demo_page) demo_flaky_telegram Z.of_nat.



Definition demo_cfg : TelegramConfig := mkTelegramConfig "TOKEN" "CHAT".

Definition demo_empty : State := mkState (Some []) [] 0 0.

Definition demo_post_a : Post := mkPost "Title A" "https://gazette.gov.mv/iulaan/view/1".
Definition demo_post_b : Post := mkPost "Title B" "https://gazette.gov.mv/iulaan/view/2".

(** The state after one fetch-now call on [demo_empty]. *)
Definition demo_fetched : State :=
  mkState (Some [new_doc demo_post_a 0; new_doc demo_post_b 1]) [] 1 2.

(** Three unnotified documents created at times 10 < 20 < 30, stored in
    another order. *)
Definition demo_doc (t : string) (at_ : Z) : Doc :=
  mkDoc (Some t) (Some ("https://gazette.gov.mv/iulaan/view/" +:+ t)) false at_ (Some at_).

Definition demo_stored : list Doc :=
  [demo_doc "2" 20; demo_doc "3" 30; demo_doc "1" 10].

Definition demo_pending : State := mkState (Some demo_stored) [] 0 0.

(** A provider that confirms everything. *)
Definition demo_ok_env : Env :=
  mkEnv (fun _ => Responded (mkResponse 200 "<html>"))
        (fun _ => demo_page) (fun _ _ => Responded (mkResponse 200 "")) Z.of_nat.

(** Twenty-one unnotified documents, created at times 0 to 20. *)
Definition demo_backlog : list Doc :=
  (fun k => demo_doc (pretty k) (Z.of_nat k)) <$> seq 0 21.

Definition demo_backlog_state : State := mkState (Some demo_backlog) [] 0 0.

(** * Properties *)

(** ** The notifier *)

Lemma send_telegram_message_eq env tok chat txt s :
  send_telegram_message env tok chat txt s =
  (Ok match telegram_api env (posted s)
              (mkRequest ("https://api.telegram.org/bot" +:+ tok +:+ "/sendMessage")
                         chat txt true) with
      | Responded r => (status_code r =? 200)%Z
      | Failed _ => false
      end,
   mkState (db s)
     (posted s ++ [mkRequest ("https://api.telegram.org/bot" +:+ tok +:+ "/sendMessage")
                             chat txt true])
     (gets s) (ticks s)).
Proof.
  unfold send_telegram_message, requests_post.
  by destruct (telegram_api env (posted s) _).
Qed.

(** C9: [send_telegram_message] always returns a boolean, whatever the
    provider does: no exception leaves it.  The boolean is [true] exactly
    when the provider answered with status code 200; any other status code
    and any transport failure give [false]. *)
Theorem send_telegram_message_total env tok chat txt s :
  let req := mkRequest ("https://api.telegram.org/bot" +:+ tok +:+ "/sendMessage")
                       chat txt true in
  ∃ b : bool,
    (send_telegram_message env tok chat txt s).1 = Ok b ∧
    (b = true ↔ ∃ r, telegram_api env (posted s) req = Responded r ∧ status_code r = 200) ∧
    (∀ r, telegram_api env (posted s) req = Responded r → status_code r ≠ 200 → b = false) ∧
    (∀ msg, telegram_api env (posted s) req = Failed msg → b = false).
Proof.
  intros req. rewrite send_telegram_message_eq. fold req.
  eexists; split; [reflexivity|].
  destruct (telegram_api env (posted s) req) as [r|msg].
  - split; [split|split].
    + intros H%Z.eqb_eq. eauto.
    + intros (r' & [= <-] & ->). done.
    + intros r' [= <-] Hne. by apply Z.eqb_neq.
    + intros ? [=].
  - split; [split|split].
    + intros [=].
    + intros (r & [=] & _).
    + intros ? [=].
    + done.
Qed.

(** ** Fetching the page *)

Lemma fetch_gazette_posts_eq env s :
  fetch_gazette_posts env s =
  let s' := mkState (db s) (posted s) (S (gets s)) (ticks s) in
  match gazette_site env (gets s) with
  | Responded r =>
      if decide (status_code r = 200)
      then (Ok (extract_posts (html_parser env (text r))), s')
      else (Raise (HTTPException 502
                     ("Gazette returned status " +:+ pretty (status_code r))), s')
  | Failed msg => (Raise (RequestException msg), s')
  end.
Proof.
  unfold fetch_gazette_posts, bind, requests_get, raise, ret. simpl.
  destruct (gazette_site env (gets s)) as [r|msg]; [|done].
  case_decide as Hc.
  - by rewrite Hc.
  - apply Z.eqb_neq in Hc. by rewrite Hc.
Qed.


(** *** De-duplication inside one fetch *)

Lemma any_url_true u posts : any_url u posts = true ↔ u ∈ url <$> posts.
Proof.
  unfold any_url. rewrite existsb_exists, list_elem_of_fmap.
  split.
  - intros (p & Hin%list_elem_of_In & Heq%String.eqb_eq). eauto.
  - intros (p & -> & Hin). exists p. split; [by apply list_elem_of_In|].
    apply String.eqb_refl.
Qed.

Lemma add_post_eq posts c :
  add_post posts c = posts ++ (if decide (url c ∈ url <$> posts) then [] else [c]).
Proof.
  unfold add_post, append_unless_seen.
  destruct (any_url (url c) posts) eqn:Hany.
  - apply any_url_true in Hany. rewrite decide_True by done. by rewrite app_nil_r.
  - rewrite decide_False; [by destruct c|].
    intros Hin%any_url_true. congruence.
Qed.

Lemma primary_step_candidate posts a :
  primary_step posts a = from_option (add_post posts) posts (primary_candidate a).
Proof.
  unfold primary_step, primary_candidate.
  destruct (get a "href") as [href|]; [|done].
  by destruct (truthy (get_text a)), (truthy href).
Qed.

Lemma fallback_step_candidate posts a :
  fallback_step posts a = from_option (add_post posts) posts (fallback_candidate a).
Proof.
  unfold fallback_step, fallback_candidate.
  destruct (get a "href") as [href|]; [|done].
  by destruct (truthy href && truthy (get_text a) && contains DETAIL_PATH href).
Qed.

Lemma foldl_step_omap (step : list Post → Node → list Post) (cand : Node → option Post) :
  (∀ posts a, step posts a = from_option (add_post posts) posts (cand a)) →
  ∀ l acc, foldl step acc l = foldl add_post acc (omap cand l).
Proof.
  intros Hstep l. induction l as [|a l IH]; intros acc; [done|].
  simpl. rewrite IH, Hstep. by destruct (cand a).
Qed.

Lemma filter_ext_in {A} (P Q : A → Prop)
    `{!∀ x, Decision (P x), !∀ x, Decision (Q x)} (l : list A) :
  (∀ x, x ∈ l → P x ↔ Q x) → filter P l = filter Q l.
Proof.
  induction l as [|a l IH]; intros Hiff; [done|].
  rewrite !filter_cons, IH by (intros; apply Hiff; by right).
  apply decide_ext, Hiff. left.
Qed.

Lemma first_occurrences_snoc l x :
  first_occurrences (l ++ [x]) =
  first_occurrences l ++ (if decide (url x ∈ url <$> l) then [] else [x]).
Proof.
  unfold first_occurrences.
  rewrite imap_app, filter_app, fmap_app. f_equal.
  - f_equal. apply filter_ext_in. intros [i c] Hin. simpl.
    apply elem_of_lookup_imap in Hin as (j & y & [= -> ->] & Hj).
    apply lookup_lt_Some in Hj.
    rewrite take_app_le by lia. done.
  - simpl. rewrite filter_cons, filter_nil. simpl.
    replace (length l + 0)%nat with (length l) by lia.
    rewrite take_app_length.
    by repeat case_decide.
Qed.

Lemma first_occurrences_urls l u :
  u ∈ url <$> first_occurrences l ↔ u ∈ url <$> l.
Proof.
  induction l as [|x l IH] using rev_ind; [done|].
  rewrite first_occurrences_snoc, !fmap_app, !elem_of_app, IH.
  case_decide as Hx; simpl; [|done].
  rewrite elem_of_nil, list_elem_of_singleton.
  split; [intros [?|[]]; by left|intros [?| ->]; by left].
Qed.

Lemma foldl_add_post l : foldl add_post [] l = first_occurrences l.
Proof.
  induction l as [|x l IH] using rev_ind; [done|].
  rewrite foldl_app, IH, first_occurrences_snoc. simpl.
  rewrite add_post_eq. f_equal.
  apply decide_ext, first_occurrences_urls.
Qed.

Lemma first_occurrences_NoDup l : NoDup (url <$> first_occurrences l).
Proof.
  induction l as [|x l IH] using rev_ind; [constructor|].
  rewrite first_occurrences_snoc, fmap_app.
  case_decide as Hx; simpl; [by rewrite app_nil_r|].
  apply NoDup_app. split_and!; [done| |apply NoDup_singleton].
  intros u Hu ->%list_elem_of_singleton.
  by apply (proj1 (first_occurrences_urls _ _)) in Hu.
Qed.

Lemma first_occurrences_nil l : first_occurrences l = [] ↔ l = [].
Proof.
  split; [|by intros ->].
  destruct l as [|x l]; [done|]. intros Hnil.
  assert (url x ∈ url <$> first_occurrences (x :: l)) as Hin.
  { apply first_occurrences_urls. simpl. left. }
  rewrite Hnil in Hin. by apply elem_of_nil in Hin.
Qed.

Lemma primary_posts_eq soup :
  primary_posts soup =
  first_occurrences (omap primary_candidate (select_a_href_prefix DETAIL_PATH soup)).
Proof.
  unfold primary_posts.
  by rewrite (foldl_step_omap _ _ primary_step_candidate), foldl_add_post.
Qed.

Lemma fallback_posts_eq soup :
  fallback_posts soup = first_occurrences (omap fallback_candidate (select_li_a soup)).
Proof.
  unfold fallback_posts.
  by rewrite (foldl_step_omap _ _ fallback_step_candidate), foldl_add_post.
Qed.

Lemma extract_posts_eq soup :
  extract_posts soup =
  if decide (primary_posts soup = []) then fallback_posts soup else primary_posts soup.
Proof.
  unfold extract_posts, fallback_posts.
  destruct (primary_posts soup) eqn:Hp; by case_decide.
Qed.


(** ** Storing new posts *)

Lemma elem_of_existing_urls docs x :
  x ∈ existing_urls_of (get_documents docs) ↔ x ∈ stored_urls docs.
Proof.
  unfold existing_urls_of, get_documents, stored_urls.
  rewrite elem_of_list_to_set, fmap_imap.
  assert (imap (λ n, (λ d : Found, doc_url d.2) ∘ (λ d, (n, d))) docs = doc_url <$> docs)
    as ->; [|done].
  generalize 0%nat. induction docs as [|d docs IH]; intros n; [done|].
  simpl. f_equal. apply (IH (S n)).
Qed.

(** The loop of [store_new_posts]: it appends one document per candidate
    whose URL is outside [existing_urls], reading the clock once for each. *)
Lemma foldl_store_step env existing_urls posts : ∀ s acc stored,
  db s = Some stored →
  foldl (store_step env existing_urls) (s, acc) posts =
  let inserted := filter (λ p, Some (url p) ∉ existing_urls) posts in
  (mkState (Some (stored ++ imap (λ k p, new_doc p (clock env (ticks s + k))) inserted))
           (posted s) (gets s) (ticks s + length inserted),
   acc ++ inserted).
Proof.
  induction posts as [|p posts IH]; intros s acc stored Hdb; simpl.
  - rewrite filter_nil. simpl. rewrite !app_nil_r, Nat.add_0_r.
    destruct s; simpl in *; by subst.
  - rewrite filter_cons. case_decide as Hp.
    + erewrite IH by (simpl; rewrite Hdb; reflexivity). simpl.
      rewrite Nat.add_0_r, <- !app_assoc. simpl.
      set (L := filter _ posts).
      rewrite (imap_ext _ ((λ k p0, new_doc p0 (clock env (ticks s + k))) ∘ S) L)
        by (intros; simpl; do 2 f_equal; lia).
      unfold create_document, new_doc. rewrite <- !app_assoc. simpl.
      by replace (S (ticks s + length L)) with (ticks s + S (length L))%nat by lia.
    + by apply IH.
Qed.

Lemma store_new_posts_some env posts s stored :
  db s = Some stored →
  store_new_posts env posts s =
  (Ok (filter (λ p, Some (url p) ∉ stored_urls stored) posts),
   mkState
     (Some (stored ++
            imap (λ k p, new_doc p (clock env (ticks s + k)))
                 (filter (λ p, Some (url p) ∉ stored_urls stored) posts)))
     (posted s) (gets s)
     (ticks s + length (filter (λ p, Some (url p) ∉ stored_urls stored) posts))).
Proof.
  intros Hdb. unfold store_new_posts. rewrite Hdb.
  rewrite (foldl_store_step _ _ _ _ _ stored Hdb). simpl.
  assert (filter (λ p, Some (url p) ∉ existing_urls_of (get_documents stored)) posts
          = filter (λ p, Some (url p) ∉ stored_urls stored) posts) as ->; [|done].
  apply list_filter_iff. intros p. by rewrite elem_of_existing_urls.
Qed.

(** C6: without a configured database [store_new_posts] raises the 500
    exception and changes nothing.  Otherwise it walks the candidates in
    input order and what it inserts is exactly the candidates whose URL is
    not among the URLs stored when the call began: it returns that
    sub-list, in input order, and appends one document per element of it,
    in the same order, each with [notified] false. *)
Theorem store_new_posts_spec env posts s :
  (db s = None →
     store_new_posts env posts s =
       (Raise (HTTPException 500 "Database not configured"), s)) ∧
  (∀ stored, db s = Some stored →
     let inserted := filter (λ p, Some (url p) ∉ stored_urls stored) posts in
     let created := imap (λ k p, new_doc p (clock env (ticks s + k))) inserted in
     store_new_posts env posts s =
       (Ok inserted,
        mkState (Some (stored ++ created)) (posted s) (gets s)
                (ticks s + length inserted)) ∧
     inserted `sublist_of` posts ∧
     Forall (λ d, notified d = false) created ∧
     stored_urls created = (λ p, Some (url p)) <$> inserted).
Proof.
  split.
  - intros Hdb. unfold store_new_posts. by rewrite Hdb.
  - intros stored Hdb inserted created.
    split_and!.
    + by rewrite (store_new_posts_some _ _ _ _ Hdb).
    + apply sublist_filter.
    + apply Forall_forall. intros d Hd.
      apply elem_of_lookup_imap in Hd as (k & p & -> & _). done.
    + unfold stored_urls, created. rewrite fmap_imap.
      rewrite (imap_ext _ (λ _ p, Some (url p))) by done.
      apply imap_const.
Qed.

Lemma stored_urls_created env n (l : list Post) :
  stored_urls (imap (λ k p, new_doc p (clock env (n + k))) l) = (λ p, Some (url p)) <$> l.
Proof.
  unfold stored_urls. rewrite fmap_imap.
  rewrite (imap_ext _ (λ _ p, Some (url p))) by done.
  apply imap_const.
Qed.

(** C10: the set of existing URLs is read once, before the loop, so two
    candidates of one batch that share a URL absent from storage are both
    inserted and the collection then holds that URL twice; the stored URLs
    stay pairwise distinct when the batch itself has pairwise distinct
    URLs. *)
Theorem store_new_posts_no_batch_dedup env s stored :
  db s = Some stored →
  NoDup (stored_urls stored) →
  (∀ p1 p2, url p1 = url p2 → Some (url p1) ∉ stored_urls stored →
     ∃ s' t1 t2,
       store_new_posts env [p1; p2] s = (Ok [p1; p2], s') ∧
       db s' = Some (stored ++ [new_doc p1 t1; new_doc p2 t2]) ∧
       doc_url (new_doc p1 t1) = doc_url (new_doc p2 t2) ∧
       ¬ NoDup (stored_urls (stored ++ [new_doc p1 t1; new_doc p2 t2]))) ∧
  (∀ posts, NoDup (url <$> posts) →
     ∃ s' stored',
       (store_new_posts env posts s).2 = s' ∧
       db s' = Some stored' ∧
       NoDup (stored_urls stored')).
Proof.
  intros Hdb Hnd. split.
  - intros p1 p2 Hu Hnew.
    rewrite (store_new_posts_some _ _ _ _ Hdb).
    rewrite !filter_cons, filter_nil.
    rewrite !decide_True by (by rewrite <- ?Hu).
    eexists _, _, _. split_and!; [reflexivity|reflexivity|simpl; by rewrite Hu|].
    unfold stored_urls. rewrite fmap_app. simpl. rewrite Hu.
    intros (_ & _ & Hdup)%NoDup_app.
    apply NoDup_cons in Hdup as [Hnotin _]. apply Hnotin. left.
  - intros posts Hposts.
    rewrite (store_new_posts_some _ _ _ _ Hdb). simpl.
    eexists _, _. split_and!; [reflexivity|reflexivity|].
    unfold stored_urls. rewrite fmap_app. fold (stored_urls stored).
    apply NoDup_app. split_and!; [done| |].
    + intros u Hu Hin.
      change (u ∈ stored_urls (imap (λ k p, new_doc p (clock env (ticks s + k)))
                (filter (λ p, Some (url p) ∉ stored_urls stored) posts))) in Hin.
      rewrite stored_urls_created in Hin.
      apply list_elem_of_fmap in Hin as (p & -> & Hp).
      apply list_elem_of_filter in Hp as [Hp _]. done.
    + change (NoDup (stored_urls (imap (λ k p, new_doc p (clock env (ticks s + k)))
                (filter (λ p, Some (url p) ∉ stored_urls stored) posts)))).
      rewrite stored_urls_created.
      rewrite (list_fmap_compose url Some).
      apply (NoDup_fmap_2 Some).
      eapply sublist_NoDup; [exact Hposts|].
      apply fmap_sublist, sublist_filter.
Qed.

(** ** Fetch-now *)

Lemma fetch_gazette_posts_state env s :
  (fetch_gazette_posts env s).2 = mkState (db s) (posted s) (S (gets s)) (ticks s).
Proof.
  rewrite fetch_gazette_posts_eq. simpl.
  destruct (gazette_site env (gets s)); [by case_decide|done].
Qed.

(** What a successful [api_fetch] did. *)
Lemma api_fetch_ok_inv env s reply s' :
  api_fetch env s = (Ok reply, s') →
  ∃ posts stored,
    (fetch_gazette_posts env s).1 = Ok posts ∧
    db s = Some stored ∧
    let inserted := filter (λ p, Some (url p) ∉ stored_urls stored) posts in
    reply = mkFetchReply (length posts) (length inserted) inserted ∧
    s' = mkState
           (Some (stored ++ imap (λ k p, new_doc p (clock env (ticks s + k))) inserted))
           (posted s) (S (gets s)) (ticks s + length inserted).
Proof.
  unfold api_fetch, bind, ret.
  pose proof (fetch_gazette_posts_state env s) as Hst.
  destruct (fetch_gazette_posts env s) as [[posts|e] sf]; [|done].
  simpl in Hst. subst sf.
  destruct (db s) as [stored|] eqn:Hdb.
  - rewrite (store_new_posts_some _ _ _ stored) by done. simpl.
    intros [= <- <-]. by exists posts, stored.
  - unfold store_new_posts. simpl. done.
Qed.

Lemma filter_all_stored (posts : list Post) (urls : list (option string)) :
  (∀ p, p ∈ posts → Some (url p) ∈ urls) →
  filter (λ p, Some (url p) ∉ urls) posts = [].
Proof.
  intros Hall. induction posts as [|p posts IH]; [done|].
  rewrite filter_cons_False.
  - apply IH. intros q Hq. apply Hall. by right.
  - intros Hn. apply Hn, Hall. left.
Qed.

(** C7: when a fetch-and-store call succeeded and the next fetch of the
    page yields the same sequence of posts, the next fetch-and-store call
    succeeds, inserts nothing and answers [new = 0]. *)
Theorem api_fetch_twice_inserts_nothing env s reply1 s1 :
  api_fetch env s = (Ok reply1, s1) →
  (fetch_gazette_posts env s1).1 = (fetch_gazette_posts env s).1 →
  ∃ reply2 s2,
    api_fetch env s1 = (Ok reply2, s2) ∧
    new reply2 = 0%nat ∧
    new_posts reply2 = [] ∧
    fetched reply2 = fetched reply1 ∧
    db s2 = db s1.
Proof.
  intros (posts & stored & Hf & Hdb & Hr & ->)%api_fetch_ok_inv Hsame.
  simpl in Hr. subst reply1.
  set (inserted := filter (λ p, Some (url p) ∉ stored_urls stored) posts) in *.
  set (s1 := mkState _ _ _ _) in *.
  rewrite Hf in Hsame.
  unfold api_fetch, bind, ret.
  pose proof (fetch_gazette_posts_state env s1) as Hst.
  destruct (fetch_gazette_posts env s1) as [res sf]. simpl in Hsame, Hst.
  subst res sf.
  erewrite store_new_posts_some by reflexivity.
  rewrite filter_all_stored.
  - simpl. rewrite app_nil_r, Nat.add_0_r. eexists _, _. split_and!; reflexivity.
  - intros p Hp. unfold stored_urls. rewrite fmap_app.
    fold (stored_urls stored).
    fold (stored_urls (imap (λ k p0, new_doc p0 (clock env (ticks s + k))) inserted)).
    rewrite stored_urls_created. apply elem_of_app.
    destruct (decide (Some (url p) ∈ stored_urls stored)) as [Hin|Hnin]; [by left|].
    right. apply (list_elem_of_fmap_2 (λ p, Some (url p))).
    apply list_elem_of_filter. done.
Qed.

(** *** Order of the fetched posts *)

Lemma candidates_eq soup :
  extract_posts soup = first_occurrences (candidates soup).
Proof.
  rewrite extract_posts_eq, primary_posts_eq, fallback_posts_eq.
  unfold candidates.
  destruct (omap primary_candidate _) as [|c cs] eqn:Hc.
  - by rewrite decide_True.
  - rewrite decide_False; [done|].
    intros Hnil%first_occurrences_nil. done.
Qed.

Lemma first_occurrences_sublist l : first_occurrences l `sublist_of` l.
Proof.
  unfold first_occurrences.
  assert (snd <$> imap (λ i c, (i, c)) l = l) as Hl.
  { rewrite fmap_imap, (imap_ext _ (const id)) by done.
    by rewrite imap_const, list_fmap_id. }
  rewrite <- Hl at 2. apply fmap_sublist, sublist_filter.
Qed.


(** ** Reading the unnotified posts *)

Global Instance created_desc_trans : Transitive created_desc.
Proof. intros x y z. unfold created_desc. lia. Qed.

Global Instance created_desc_total : Total created_desc.
Proof. intros x y. unfold created_desc. lia. Qed.

Lemma get_documents_ids docs : (get_documents docs).*1 = seq 0 (length docs).
Proof.
  enough (∀ n, (imap (λ i d, ((n + i)%nat, d)) docs).*1 = seq n (length docs)) as H
    by apply (H 0%nat).
  induction docs as [|d docs IH]; intros n; [done|].
  simpl. f_equal; [lia|]. rewrite <- (IH (S n)). f_equal.
  apply imap_ext. intros i x _. simpl. f_equal. lia.
Qed.

Lemma elem_of_get_documents docs (d : Found) :
  d ∈ get_documents docs ↔ docs !! d.1 = Some d.2.
Proof.
  unfold get_documents. rewrite elem_of_lookup_imap. destruct d as [i x]. simpl.
  split; [by intros (j & y & [= -> ->] & ?)|eauto].
Qed.

Lemma find_unnotified_sorted n stored :
  StronglySorted created_desc (find_unnotified n stored).
Proof.
  unfold find_unnotified.
  set (l := merge_sort _ _).
  assert (StronglySorted created_desc l) as Hl.
  { apply StronglySorted_merge_sort; apply _. }
  rewrite <- (take_drop n l) in Hl. by apply StronglySorted_app_1_l in Hl.
Qed.

Lemma find_unnotified_elem n stored d :
  d ∈ find_unnotified n stored → stored !! d.1 = Some d.2 ∧ notified d.2 = false.
Proof.
  unfold find_unnotified. intros Hd.
  apply elem_of_take in Hd as (i & Hd%list_elem_of_lookup_2 & _).
  rewrite merge_sort_Permutation in Hd.
  apply list_elem_of_filter in Hd as [Hn Hd].
  by apply elem_of_get_documents in Hd.
Qed.

Lemma find_unnotified_NoDup n stored : NoDup (find_unnotified n stored).*1.
Proof.
  unfold find_unnotified.
  eapply sublist_NoDup; [|apply fmap_sublist, sublist_take].
  rewrite merge_sort_Permutation.
  eapply sublist_NoDup; [|apply fmap_sublist, sublist_filter].
  rewrite get_documents_ids. apply NoDup_seq.
Qed.

(** The documents read are the head of a listing of all unnotified
    documents by decreasing creation time. *)
Lemma find_unnotified_head n stored :
  ∃ rest,
    find_unnotified n stored ++ rest ≡ₚ
      filter (λ d : Found, notified d.2 = false) (get_documents stored) ∧
    StronglySorted created_desc (find_unnotified n stored ++ rest).
Proof.
  unfold find_unnotified. set (l := merge_sort _ _).
  exists (drop n l). rewrite take_drop. split.
  - apply merge_sort_Permutation.
  - apply StronglySorted_merge_sort; apply _.
Qed.

Lemma StronglySorted_lookup_lt {A} (R : relation A) l i j x y :
  StronglySorted R l → l !! i = Some x → l !! j = Some y → (i < j)%nat → R x y.
Proof.
  intros Hl Hi Hj Hlt.
  rewrite <- (take_drop j l) in Hl.
  eapply StronglySorted_app_1_elem_of; [exact Hl| |].
  - apply elem_of_take. eauto.
  - apply list_elem_of_lookup. exists 0%nat. by rewrite lookup_drop, Nat.add_0_r.
Qed.

(** ** The notify loop *)

Lemma send_for env cfg d s :
  send_telegram_message env (bot_token cfg) (chat_id cfg) (notification_text d) s =
  (notifier_reply env cfg (posted s) d,
   mkState (db s) (posted s ++ [request_for cfg d]) (gets s) (ticks s)).
Proof.
  unfold notifier_reply. by rewrite !send_telegram_message_eq.
Qed.

Lemma notifier_reply_bool env cfg hist d :
  ∃ b : bool, notifier_reply env cfg hist d = Ok b.
Proof.
  unfold notifier_reply. rewrite send_telegram_message_eq. simpl. eauto.
Qed.

Lemma notify_loop_cons env cfg d ds sent s :
  notify_loop env cfg (d :: ds) sent s =
  match notifier_reply env cfg (posted s) d with
  | Ok true =>
      notify_loop env cfg ds (S sent)
        (mkState (update_one d.1 (clock env (ticks s)) <$> db s)
                 (posted s ++ [request_for cfg d]) (gets s) (S (ticks s)))
  | Ok false =>
      (Ok sent, mkState (db s) (posted s ++ [request_for cfg d]) (gets s) (ticks s))
  | Raise e =>
      (Raise e, mkState (db s) (posted s ++ [request_for cfg d]) (gets s) (ticks s))
  end.
Proof.
  simpl. unfold bind at 1.
  change (default "New Gazette Post" (doc_title d.2) +:+ NEWLINE +:+ default "" (doc_url d.2))
    with (notification_text d).
  rewrite send_for.
  by destruct (notifier_reply env cfg (posted s) d) as [[]|].
Qed.

Lemma marked_length env ds : ∀ t stored,
  length (marked env t ds stored) = length stored.
Proof.
  induction ds as [|d ds IH]; intros t stored; [done|].
  simpl. rewrite IH. apply length_alter.
Qed.

Lemma marked_lookup_other env ds i : ∀ t stored,
  i ∉ ds.*1 → marked env t ds stored !! i = stored !! i.
Proof.
  induction ds as [|d ds IH]; intros t stored Hi; [done|].
  simpl in *. apply not_elem_of_cons in Hi as [Hne Hi].
  rewrite IH by done. unfold update_one. by rewrite list_lookup_alter_ne.
Qed.

Lemma marked_lookup env ds : ∀ t stored j d x,
  NoDup ds.*1 → ds !! j = Some d → stored !! d.1 = Some x →
  marked env t ds stored !! d.1 = Some (mark_notified (clock env (t + j)) x).
Proof.
  induction ds as [|d0 ds IH]; intros t stored j d x Hnd Hj Hx; [done|].
  simpl in Hnd. apply NoDup_cons in Hnd as [Hd0 Hnd].
  destruct j as [|j]; simpl in *.
  - injection Hj as ->. rewrite marked_lookup_other by done.
    unfold update_one. rewrite list_lookup_alter_eq, Hx, Nat.add_0_r. done.
  - replace (t + S j)%nat with (S t + j)%nat by lia.
    apply IH; [done..|].
    unfold update_one. rewrite list_lookup_alter_ne; [done|].
    intros Heq. apply Hd0. rewrite Heq.
    apply list_elem_of_fmap_2. by eapply list_elem_of_lookup_2.
Qed.

(** How the loop runs: [k] messages are confirmed, the documents they
    belong to are marked, and if documents remain the message of the next
    one was sent and refused; nothing is sent after that. *)
Lemma notify_loop_run env cfg ds : ∀ sent s,
  ∃ k, (k ≤ length ds)%nat ∧
    notify_loop env cfg ds sent s =
      (Ok (sent + k)%nat,
       mkState (marked env (ticks s) (take k ds) <$> db s)
               (posted s ++ (request_for cfg <$> take (S k) ds))
               (gets s) (ticks s + k)) ∧
    (∀ j d, (j < k)%nat → ds !! j = Some d →
       notifier_reply env cfg (posted s ++ (request_for cfg <$> take j ds)) d = Ok true) ∧
    (∀ d, ds !! k = Some d →
       notifier_reply env cfg (posted s ++ (request_for cfg <$> take k ds)) d = Ok false).
Proof.
  induction ds as [|d ds IH]; intros sent s.
  - exists 0%nat. split_and!; [done| |intros; lia|done].
    simpl. unfold ret. rewrite app_nil_r, !Nat.add_0_r.
    destruct s as [[stored|] ? ? ?]; done.
  - rewrite notify_loop_cons.
    destruct (notifier_reply_bool env cfg (posted s) d) as [[] Hb]; rewrite Hb.
    + set (s1 := mkState _ _ _ _).
      destruct (IH (S sent) s1) as (k & Hk & -> & Hok & Hfail).
      exists (S k). split_and!.
      * simpl. lia.
      * subst s1. simpl. rewrite <- app_assoc. simpl.
        replace (S (sent + k)) with (sent + S k)%nat by lia.
        replace (S (ticks s + k)) with (ticks s + S k)%nat by lia.
        by destruct (db s).
      * intros [|j] d' Hj Hd'; simpl in *.
        -- injection Hd' as <-. by rewrite app_nil_r.
        -- specialize (Hok j d' ltac:(lia) Hd').
           subst s1. simpl in Hok. by rewrite <- app_assoc in Hok.
      * intros d' Hd'. simpl in Hd'. specialize (Hfail d' Hd').
        subst s1. simpl in Hfail. by rewrite <- app_assoc in Hfail.
    + exists 0%nat. split_and!.
      * simpl. lia.
      * simpl. rewrite !Nat.add_0_r. by destruct (db s).
      * intros; lia.
      * intros d' [= <-]. simpl. by rewrite app_nil_r.
Qed.

Lemma api_notify_eq env cfg s stored :
  db s = Some stored →
  api_notify env cfg s = notify_loop env cfg (reverse (find_unnotified 20 stored)) 0 s.
Proof.
  intros Hdb. unfold api_notify. rewrite Hdb.
  by destruct (find_unnotified 20 stored).
Qed.

(** ** Notify-now *)

(** C1: a notify-now call reads at most 20 documents, all of them
    unnotified, namely the head of the unnotified documents listed by
    decreasing creation time.  The sends it attempts follow the reverse of
    that order: the requests it posts are those of a prefix of the reversed
    list, so of two attempted documents the one created strictly earlier is
    sent first, and when the send for a document is attempted the send for
    every document read that was created strictly earlier was attempted
    before it.  Which sends are attempted is fixed: the send for a document
    read is attempted exactly when the notifier confirmed the message of
    every document before it in the reversed list, so the send for the
    oldest document read is always attempted. *)
Theorem notify_sends_oldest_first env cfg s stored :
  db s = Some stored →
  let docs := find_unnotified 20 stored in
  (length docs ≤ 20)%nat ∧
  (∀ d, d ∈ docs → stored !! d.1 = Some d.2 ∧ notified d.2 = false) ∧
  (∃ rest,
     docs ++ rest ≡ₚ filter (λ d : Found, notified d.2 = false) (get_documents stored) ∧
     StronglySorted created_desc (docs ++ rest)) ∧
  ∃ attempted,
    attempted `prefix_of` reverse docs ∧
    posted (api_notify env cfg s).2 = posted s ++ (request_for cfg <$> attempted) ∧
    (∀ i j d1 d2,
       attempted !! i = Some d1 → attempted !! j = Some d2 →
       created_at d1.2 < created_at d2.2 → (i < j)%nat) ∧
    (∀ j d1 d2,
       d1 ∈ docs → attempted !! j = Some d2 →
       created_at d1.2 < created_at d2.2 →
       ∃ i, (i < j)%nat ∧ attempted !! i = Some d1) ∧
    (∀ j d, reverse docs !! j = Some d →
       (attempted !! j = Some d ↔
        ∀ i d', (i < j)%nat → reverse docs !! i = Some d' →
          notifier_reply env cfg
            (posted s ++ (request_for cfg <$> take i (reverse docs))) d' = Ok true)).
Proof.
  intros Hdb docs. split_and!.
  - unfold docs, find_unnotified. rewrite length_take. lia.
  - intros d. apply find_unnotified_elem.
  - apply find_unnotified_head.
  - rewrite (api_notify_eq _ _ _ _ Hdb). fold docs.
    destruct (notify_loop_run env cfg (reverse docs) 0%nat s)
      as (k & Hk & -> & Hok & Hfail).
    assert (∀ p q d1 d2, docs !! p = Some d1 → docs !! q = Some d2 →
              created_at d1.2 < created_at d2.2 → (q < p)%nat) as Hpos.
    { intros p q d1 d2 Hp Hq Hlt.
      destruct (decide (q < p)%nat) as [|Hge]; [done|exfalso].
      destruct (decide (p = q)) as [->|Hne].
      - rewrite Hp in Hq. injection Hq as ->. lia.
      - assert (created_desc d1 d2) as Hdesc.
        { eapply (StronglySorted_lookup_lt created_desc docs);
            [apply find_unnotified_sorted|exact Hp|exact Hq|lia]. }
        unfold created_desc in Hdesc. lia. }
    exists (take (S k) (reverse docs)). split_and!; [apply prefix_take|done| | |].
    + intros i j d1 d2 Hi Hj Hlt.
      apply lookup_take_Some in Hi as [Hi _]. apply lookup_take_Some in Hj as [Hj _].
      apply reverse_lookup_Some in Hi as [Hi Hil].
      apply reverse_lookup_Some in Hj as [Hj Hjl].
      specialize (Hpos _ _ _ _ Hi Hj Hlt). lia.
    + intros j d1 d2 Hd1 Hj Hlt.
      apply lookup_take_Some in Hj as [Hj Hjk].
      apply reverse_lookup_Some in Hj as [Hj Hjl].
      apply list_elem_of_lookup in Hd1 as [p Hp].
      pose proof (lookup_lt_Some _ _ _ Hp) as Hpl.
      specialize (Hpos _ _ _ _ Hp Hj Hlt).
      exists (length docs - S p)%nat. split; [lia|].
      apply lookup_take_Some. split; [|lia].
      apply reverse_lookup_Some. split; [|lia].
      by replace (length docs - S (length docs - S p))%nat with p by lia.
    + intros j d Hj. rewrite lookup_take_Some. split.
      * intros [_ Hjk] i d' Hij Hi. apply Hok; [lia|done].
      * intros Hall. split; [done|].
        destruct (decide (j < S k)%nat) as [|Hge]; [done|exfalso].
        destruct (lookup_lt_is_Some_2 (reverse docs) k) as [d' Hd'].
        { apply lookup_lt_Some in Hj. lia. }
        specialize (Hall k d' ltac:(lia) Hd').
        rewrite (Hfail d' Hd') in Hall. done.
Qed.

(** C2: let the documents of a notify-now call, oldest first, be [before],
    then [d], then [after].  If the notifier confirms every message of
    [before] and returns false for the message of [d], the call answers
    [sent = length before]; the last request it posted is the one for [d],
    so nothing of [after] was sent; [d] and every document of [after] are
    stored as they were, with [notified] false; the documents of [before]
    are marked notified. *)
Theorem notify_stops_at_first_failure env cfg s stored before d after :
  db s = Some stored →
  reverse (find_unnotified 20 stored) = before ++ d :: after →
  (∀ j d', before !! j = Some d' →
     notifier_reply env cfg (posted s ++ (request_for cfg <$> take j before)) d' = Ok true) →
  notifier_reply env cfg (posted s ++ (request_for cfg <$> before)) d = Ok false →
  ∃ stored',
    api_notify env cfg s =
      (Ok (length before),
       mkState (Some stored') (posted s ++ (request_for cfg <$> before ++ [d]))
               (gets s) (ticks s + length before)) ∧
    (∀ d', d' ∈ d :: after → stored' !! d'.1 = Some d'.2 ∧ notified d'.2 = false) ∧
    (∀ j d', before !! j = Some d' →
       stored' !! d'.1 = Some (mark_notified (clock env (ticks s + j)) d'.2)).
Proof.
  intros Hdb Hrev Hbefore Hd.
  rewrite (api_notify_eq _ _ _ _ Hdb), Hrev.
  destruct (notify_loop_run env cfg (before ++ d :: after) 0%nat s)
    as (k & _ & -> & Hok & Hfail).
  assert (k = length before) as ->.
  { destruct (Nat.lt_trichotomy k (length before)) as [Hlt|[->|Hgt]]; [exfalso|done|exfalso].
    - destruct (lookup_lt_is_Some_2 before k Hlt) as [d' Hd'].
      specialize (Hfail d'). rewrite lookup_app_l in Hfail by done.
      specialize (Hfail Hd'). rewrite take_app_le in Hfail by lia.
      rewrite (Hbefore k d' Hd') in Hfail. done.
    - specialize (Hok (length before) d Hgt (list_lookup_middle _ _ _ _ eq_refl)).
      rewrite take_app_length in Hok. rewrite Hok in Hd. done. }
  rewrite Hdb. simpl.
  assert (NoDup (before ++ d :: after).*1) as Hnd.
  { rewrite <- Hrev, fmap_reverse, reverse_Permutation. apply find_unnotified_NoDup. }
  assert (∀ d', d' ∈ before ++ d :: after →
                stored !! d'.1 = Some d'.2 ∧ notified d'.2 = false) as Hin.
  { intros d' Hd'. rewrite <- Hrev in Hd'. apply (proj1 (elem_of_reverse _ _)) in Hd'.
    by apply find_unnotified_elem in Hd'. }
  rewrite fmap_app in Hnd. apply NoDup_app in Hnd as (Hnd1 & Hdisj & _).
  rewrite take_app_length.
  replace (take (S (length before)) (before ++ d :: after)) with (before ++ [d]).
  2:{ rewrite (take_S_r _ _ d) by apply list_lookup_middle, eq_refl.
      by rewrite take_app_length. }
  eexists. split_and!; [reflexivity| |].
  - intros d' Hd'.
    rewrite marked_lookup_other.
    + apply Hin, elem_of_app. by right.
    + intros Hb. eapply Hdisj; [exact Hb|]. by apply list_elem_of_fmap_2.
  - intros j d' Hj. apply marked_lookup; [done..|].
    apply Hin, elem_of_app. left. by eapply list_elem_of_lookup_2.
Qed.

(** C3: after a notify-now call every stored document is either exactly
    as it was, or it was unnotified, its message was posted during the
    call and confirmed by the notifier, and the document differs from what
    it was only in [notified], now true, and [updated_at], now a reading of
    the clock taken during the call; title, URL and creation time are what
    they were. *)
Theorem notify_marks_only_confirmed env cfg s stored :
  db s = Some stored →
  let s' := (api_notify env cfg s).2 in
  ∃ stored',
    db s' = Some stored' ∧
    length stored' = length stored ∧
    ∀ i d, stored !! i = Some d →
      stored' !! i = Some d ∨
      (notified d = false ∧
       ∃ hist n,
         posted s `prefix_of` hist ∧
         (hist ++ [request_for cfg (i, d)]) `prefix_of` posted s' ∧
         notifier_reply env cfg hist (i, d) = Ok true ∧
         (ticks s ≤ n < ticks s')%nat ∧
         ∃ d',
           stored' !! i = Some d' ∧
           notified d' = true ∧
           updated_at d' = Some (clock env n) ∧
           doc_title d' = doc_title d ∧
           doc_url d' = doc_url d ∧
           created_at d' = created_at d).
Proof.
  intros Hdb s'. subst s'.
  rewrite (api_notify_eq _ _ _ _ Hdb).
  set (ds := reverse (find_unnotified 20 stored)).
  destruct (notify_loop_run env cfg ds 0%nat s) as (k & Hk & -> & Hok & _).
  rewrite Hdb. simpl.
  eexists. split_and!; [reflexivity|apply marked_length|].
  intros i d Hi.
  destruct (decide (i ∈ (take k ds).*1)) as [Hin|Hnin].
  2:{ left. by rewrite marked_lookup_other. }
  right.
  apply list_elem_of_fmap in Hin as ([i' d'] & -> & Hin). simpl in Hi.
  apply list_elem_of_lookup in Hin as [j Hj].
  pose proof Hj as [Hjds Hjk]%lookup_take_Some.
  assert ((i', d') ∈ find_unnotified 20 stored) as Hfound.
  { apply (proj1 (elem_of_reverse _ _)). by eapply list_elem_of_lookup_2. }
  apply find_unnotified_elem in Hfound as [Hst Hnot]. simpl in *.
  rewrite Hi in Hst. injection Hst as <-.
  split; [done|].
  exists (posted s ++ (request_for cfg <$> take j ds)), (ticks s + j)%nat.
  split_and!.
  - by apply prefix_app_r.
  - exists (request_for cfg <$> drop (S j) (take (S k) ds)).
    rewrite <- !app_assoc. f_equal.
    rewrite <- (take_drop (S j) (take (S k) ds)) at 1.
    rewrite take_take, Nat.min_l by lia.
    by rewrite (take_S_r _ _ _ Hjds), !fmap_app, <- app_assoc.
  - by apply Hok.
  - lia.
  - lia.
  - exists (mark_notified (clock env (ticks s + j)) d). split; [|done].
    apply (marked_lookup env (take k ds) (ticks s) stored j (i', d) d); [|done..].
    eapply sublist_NoDup; [|apply fmap_sublist, sublist_take].
    unfold ds. rewrite fmap_reverse, reverse_Permutation.
    apply find_unnotified_NoDup.
Qed.

(** * The statements on the scenario *)




Lemma api_fetch_twice_inserts_nothing_demo :
  ∃ reply2 s2,
    api_fetch demo_env demo_fetched = (Ok reply2, s2) ∧ new reply2 = 0%nat.
Proof.
  destruct (api_fetch_twice_inserts_nothing demo_env demo_empty
              (mkFetchReply 2 2 [demo_post_a; demo_post_b]) demo_fetched)
    as (reply2 & s2 & H & Hnew & _).
  - vm_compute; reflexivity.
  - vm_compute; reflexivity.
  - by exists reply2, s2.
Defined.

Lemma store_new_posts_no_batch_dedup_demo :
  ∃ s', store_new_posts demo_env [demo_post_a; demo_post_a] demo_empty =
        (Ok [demo_post_a; demo_post_a], s').
Proof.
  destruct (proj1 (store_new_posts_no_batch_dedup demo_env demo_empty []
                     eq_refl (NoDup_nil_2 : NoDup (stored_urls [])))
              demo_post_a demo_post_a eq_refl)
    as (s' & t1 & t2 & H & _).
  - unfold stored_urls. simpl. apply not_elem_of_nil.
  - by exists s'.
Defined.

Lemma notify_sends_oldest_first_demo :
  posted (api_notify demo_ok_env demo_cfg demo_pending).2 =
  request_for demo_cfg <$>
    [(2%nat, demo_doc "1" 10); (0%nat, demo_doc "2" 20); (1%nat, demo_doc "3" 30)].
Proof.
  pose proof (notify_sends_oldest_first demo_ok_env demo_cfg demo_pending demo_stored
                eq_refl) as H.
  cbv zeta in H.
  destruct H as (_ & _ & _ & attempted & [rest Hrest] & -> & _ & _ & Hiff).
  assert (reverse (find_unnotified 20 demo_stored) =
          [(2%nat, demo_doc "1" 10); (0%nat, demo_doc "2" 20); (1%nat, demo_doc "3" 30)])
    as Hdocs by (vm_compute; reflexivity).
  rewrite Hdocs in Hrest, Hiff.
  assert (attempted !! 2%nat = Some (1%nat, demo_doc "3" 30)) as Hlast.
  { apply Hiff; [reflexivity|].
    intros [|[|i]] d' Hi Hd'; [| |lia]; injection Hd' as <-; vm_compute; reflexivity. }
  apply lookup_lt_Some in Hlast.
  apply (f_equal length) in Hrest as Hlen. rewrite length_app in Hlen. simpl in Hlen.
  destruct rest; [|simpl in Hlen; lia].
  rewrite app_nil_r in Hrest. by rewrite <- Hrest.
Defined.

Lemma notify_stops_at_first_failure_demo :
  (api_notify demo_env demo_cfg demo_pending).1 = Ok 1%nat ∧
  (∃ stored', db (api_notify demo_env demo_cfg demo_pending).2 = Some stored' ∧
              notified <$> stored' = [false; false; true]).
Proof.
  destruct (notify_stops_at_first_failure demo_env demo_cfg demo_pending demo_stored
              [(2%nat, demo_doc "1" 10)] (0%nat, demo_doc "2" 20)
              [(1%nat, demo_doc "3" 30)])
    as (stored' & H & _).
  - reflexivity.
  - vm_compute; reflexivity.
  - intros [|j] d' Hj; [|done]. injection Hj as <-. vm_compute; reflexivity.
  - vm_compute; reflexivity.
  - split; [by rewrite H|].
    vm_compute. eexists; split; reflexivity.
Defined.

Lemma notify_marks_only_confirmed_demo :
  ∃ stored',
    db (api_notify demo_env demo_cfg demo_pending).2 = Some stored' ∧
    notified <$> stored' = [false; false; true] ∧
    updated_at <$> stored' = [Some 20; Some 30; Some 0].
Proof.
  destruct (notify_marks_only_confirmed demo_env demo_cfg demo_pending demo_stored
              eq_refl) as (stored' & Hdb & _ & Hall).
  exists stored'. split; [exact Hdb|].
  destruct (Hall 2%nat (demo_doc "1" 10) eq_refl)
    as [Hsame|(_ & hist & n & _ & _ & _ & _ & d' & Hd' & Hn & Hu & _)].
  - vm_compute in Hdb. injection Hdb as <-. discriminate Hsame.
  - vm_compute in Hdb. injection Hdb as <-. split; reflexivity.
Defined.

(** * Further properties *)

(** ** What a fetch returns *)

Lemma contains_cons n c h :
  contains n (String c h) = String.prefix n (String c h) || contains n h.
Proof. done. Qed.

Lemma prefix_contains n h : String.prefix n h = true → contains n h = true.
Proof.
  intros H. destruct h as [|c h].
  - change (contains n "") with (String.prefix n "" || false). by rewrite H.
  - by rewrite contains_cons, H.
Qed.

Lemma contains_app_r n a b :
  contains n b = true → contains n (a +:+ b) = true.
Proof.
  intros H. induction a as [|c a IH]; [exact H|].
  change (String c a +:+ b) with (String c (a +:+ b)).
  rewrite contains_cons, IH. apply orb_true_r.
Qed.

Lemma absolute_url_http href : String.prefix "http" (absolute_url href) = true.
Proof.
  unfold absolute_url. by destruct (String.prefix "http" href) eqn:H.
Qed.

Lemma absolute_url_contains n href :
  contains n href = true → contains n (absolute_url href) = true.
Proof.
  intros H. unfold absolute_url.
  destruct (String.prefix "http" href); [done|]. by apply contains_app_r.
Qed.

Lemma elem_of_select_a_href_prefix pre soup a :
  a ∈ select_a_href_prefix pre soup → is_anchor a = true ∧ href_starts_with pre a = true.
Proof.
  unfold select_a_href_prefix.
  intros ([b a'] & -> & [H _]%list_elem_of_filter)%list_elem_of_fmap.
  simpl in *. by apply andb_prop in H.
Qed.

Lemma elem_of_extract_posts soup p :
  p ∈ extract_posts soup →
  (∃ a, a ∈ select_a_href_prefix DETAIL_PATH soup ∧ primary_candidate a = Some p) ∨
  (∃ a, a ∈ select_li_a soup ∧ fallback_candidate a = Some p).
Proof.
  rewrite candidates_eq. intros Hp.
  apply (λ H, elem_of_sublist _ _ _ H (first_occurrences_sublist _)) in Hp.
  unfold candidates in Hp.
  destruct (omap primary_candidate _) as [|c cs] eqn:Hc.
  - right. by apply list_elem_of_omap in Hp.
  - left. rewrite <- Hc in Hp. by apply list_elem_of_omap in Hp.
Qed.

(** X1: every post that [fetch_gazette_posts] returns has a non-empty title
    and an absolute URL (it starts with "http") that contains the detail
    path. *)
Theorem fetched_posts_well_formed env s posts p :
  (fetch_gazette_posts env s).1 = Ok posts →
  p ∈ posts →
  title p ≠ "" ∧
  String.prefix "http" (url p) = true ∧
  contains DETAIL_PATH (url p) = true.
Proof.
  intros Hf Hp.
  rewrite fetch_gazette_posts_eq in Hf. simpl in Hf.
  destruct (gazette_site env (gets s)) as [r|]; [|done].
  case_decide; [|done]. simpl in Hf. injection Hf as <-.
  apply elem_of_extract_posts in Hp as [(a & Ha & Hc)|(a & Ha & Hc)].
  - apply elem_of_select_a_href_prefix in Ha as [_ Hpre].
    unfold primary_candidate in Hc. unfold href_starts_with in Hpre.
    destruct (get a "href") as [href|]; [|done].
    destruct (truthy (get_text a)) eqn:Ht; [|done].
    destruct (truthy href); [|done]. simpl in Hc. injection Hc as <-. simpl.
    split_and!.
    + intros Heq. unfold truthy in Ht. by rewrite Heq in Ht.
    + apply absolute_url_http.
    + by apply absolute_url_contains, prefix_contains.
  - unfold fallback_candidate in Hc.
    destruct (get a "href") as [href|]; [|done].
    destruct (truthy href); [|done].
    destruct (truthy (get_text a)) eqn:Ht; [|done].
    destruct (contains DETAIL_PATH href) eqn:Hcont; [|done].
    simpl in Hc. injection Hc as <-. simpl.
    split_and!.
    + intros Heq. unfold truthy in Ht. by rewrite Heq in Ht.
    + apply absolute_url_http.
    + by apply absolute_url_contains.
Qed.

(** ** Fetch-now as a whole *)

Lemma api_fetch_eq env s :
  api_fetch env s =
  let sf := mkState (db s) (posted s) (S (gets s)) (ticks s) in
  match (fetch_gazette_posts env s).1 with
  | Raise e => (Raise e, sf)
  | Ok posts =>
      match db s with
      | None => (Raise (HTTPException 500 "Database not configured"), sf)
      | Some stored =>
          let inserted := filter (λ p, Some (url p) ∉ stored_urls stored) posts in
          (Ok (mkFetchReply (length posts) (length inserted) inserted),
           mkState
             (Some (stored ++ imap (λ k p, new_doc p (clock env (ticks s + k))) inserted))
             (posted s) (S (gets s)) (ticks s + length inserted))
      end
  end.
Proof.
  unfold api_fetch, bind, ret.
  pose proof (fetch_gazette_posts_state env s) as Hst.
  destruct (fetch_gazette_posts env s) as [[posts|e] sf]; simpl in *; subst sf; [|done].
  destruct (db s) as [stored|] eqn:Hdb.
  - by rewrite (store_new_posts_some _ _ _ stored).
  - done.
Qed.

Lemma fetch_result_NoDup env s posts :
  (fetch_gazette_posts env s).1 = Ok posts → NoDup (url <$> posts).
Proof.
  rewrite fetch_gazette_posts_eq. simpl.
  destruct (gazette_site env (gets s)) as [r|]; [|done].
  case_decide; [|done]. simpl. intros [= <-].
  rewrite candidates_eq. apply first_occurrences_NoDup.
Qed.

Lemma created_unnotified env n (l : list Post) :
  Forall (λ d, notified d = false) (imap (λ k p, new_doc p (clock env (n + k))) l).
Proof.
  apply Forall_forall. intros d (k & p & -> & _)%elem_of_lookup_imap. done.
Qed.

Lemma stored_urls_after_store env n stored (posts : list Post) :
  NoDup (stored_urls stored) → NoDup (url <$> posts) →
  NoDup (stored_urls
           (stored ++ imap (λ k p, new_doc p (clock env (n + k)))
                           (filter (λ p, Some (url p) ∉ stored_urls stored) posts))).
Proof.
  intros Hst Hposts.
  unfold stored_urls at 1. rewrite fmap_app.
  fold (stored_urls stored).
  fold (stored_urls (imap (λ k p, new_doc p (clock env (n + k)))
                          (filter (λ p, Some (url p) ∉ stored_urls stored) posts))).
  rewrite stored_urls_created.
  apply NoDup_app. split_and!; [done| |].
  - intros u Hu (p & -> & [Hp _]%list_elem_of_filter)%list_elem_of_fmap. done.
  - rewrite (list_fmap_compose url Some). apply (NoDup_fmap_2 Some).
    eapply sublist_NoDup; [exact Hposts|]. apply fmap_sublist, sublist_filter.
Qed.

(** X2: whatever its outcome, a fetch-now call makes exactly one GET, posts
    nothing to Telegram, and leaves every stored document in place and
    unchanged: the collection afterwards is the old one followed by the
    documents it added, all of them unnotified. *)
Theorem api_fetch_only_appends env s :
  let s' := (api_fetch env s).2 in
  posted s' = posted s ∧
  gets s' = S (gets s) ∧
  match db s with
  | None => db s' = None
  | Some stored =>
      ∃ added, db s' = Some (stored ++ added) ∧
               Forall (λ d, notified d = false) added
  end.
Proof.
  rewrite api_fetch_eq. simpl.
  destruct (fetch_gazette_posts env s).1 as [posts|e]; simpl.
  - destruct (db s) as [stored|] eqn:Hdb; simpl; [|done].
    split_and!; [done..|]. eexists. split; [done|]. apply created_unnotified.
  - split_and!; [done..|].
    destruct (db s) as [stored|]; [|done].
    exists []. by rewrite app_nil_r.
Qed.

(** X3: fetch-now keeps the stored URLs pairwise distinct: if they are before
    the call, they are after it, whatever the page holds. *)
Theorem api_fetch_keeps_urls_distinct env s stored :
  db s = Some stored →
  NoDup (stored_urls stored) →
  ∃ stored', db (api_fetch env s).2 = Some stored' ∧ NoDup (stored_urls stored').
Proof.
  intros Hdb Hnd. rewrite api_fetch_eq. simpl.
  destruct (fetch_gazette_posts env s).1 as [posts|e] eqn:Hf; simpl.
  - rewrite Hdb. simpl. eexists. split; [done|].
    apply stored_urls_after_store; [done|]. by eapply fetch_result_NoDup.
  - by exists stored.
Qed.

(** X4: the reply of a successful fetch-now call adds up: [fetched] is the
    number of posts on the page, [new] the length of [new_posts] and at
    most [fetched], the collection grew by exactly [new] documents,
    [new_posts] are the fetched posts whose URL was not stored before, and
    after the call the URL of every fetched post is stored. *)
Theorem api_fetch_accounts env s reply s' :
  api_fetch env s = (Ok reply, s') →
  ∃ posts stored stored',
    (fetch_gazette_posts env s).1 = Ok posts ∧
    db s = Some stored ∧ db s' = Some stored' ∧
    fetched reply = length posts ∧
    new reply = length (new_posts reply) ∧
    (new reply ≤ fetched reply)%nat ∧
    length stored' = (length stored + new reply)%nat ∧
    (∀ p, p ∈ new_posts reply ↔ p ∈ posts ∧ Some (url p) ∉ stored_urls stored) ∧
    (∀ p, p ∈ posts → Some (url p) ∈ stored_urls stored').
Proof.
  intros (posts & stored & Hf & Hdb & Hr & ->)%api_fetch_ok_inv.
  simpl in Hr. subst reply. simpl.
  exists posts, stored. eexists. split_and!; [done..| | | |].
  - apply length_filter.
  - by rewrite length_app, length_imap.
  - intros p. rewrite list_elem_of_filter. tauto.
  - intros p Hp. unfold stored_urls. rewrite fmap_app. apply elem_of_app.
    destruct (decide (Some (url p) ∈ stored_urls stored)) as [|Hn]; [by left|right].
    fold (stored_urls (imap (λ k p0, new_doc p0 (clock env (ticks s + k)))
            (filter (λ p0, Some (url p0) ∉ stored_urls stored) posts))).
    rewrite stored_urls_created.
    apply (list_elem_of_fmap_2 (λ p, Some (url p))), list_elem_of_filter. done.
Qed.

(** X5: fetch-now succeeds exactly when the site answers 200 and a database
    is configured.  The page is fetched first: a status other than 200
    gives the 502 error and a transport failure gives that failure, also
    when no database is configured; the 500 error appears only after a
    good fetch. *)
Theorem api_fetch_error_order env s :
  ((∃ reply, (api_fetch env s).1 = Ok reply) ↔
     (∃ r, gazette_site env (gets s) = Responded r ∧ status_code r = 200) ∧
     db s ≠ None) ∧
  (∀ r, gazette_site env (gets s) = Responded r → status_code r ≠ 200 →
     ∃ detail, (api_fetch env s).1 = Raise (HTTPException 502 detail)) ∧
  (∀ msg, gazette_site env (gets s) = Failed msg →
     (api_fetch env s).1 = Raise (RequestException msg)) ∧
  (∀ r, gazette_site env (gets s) = Responded r → status_code r = 200 →
     db s = None →
     (api_fetch env s).1 = Raise (HTTPException 500 "Database not configured")).
Proof.
  rewrite api_fetch_eq, fetch_gazette_posts_eq. simpl.
  destruct (gazette_site env (gets s)) as [r|msg]; simpl.
  - case_decide as Hc; simpl.
    + destruct (db s) as [stored|]; simpl; split_and!.
      * split; [intros _; split; [eauto|done]|eauto].
      * intros r' [= <-] Hne. done.
      * intros ? [=].
      * intros. done.
      * split; [intros [? [=]]|intros [_ Hn]; done].
      * intros r' [= <-] Hne. done.
      * intros ? [=].
      * done.
    + split_and!.
      * split; [intros [? [=]]|intros [(r' & [= <-] & ?) _]; done].
      * eauto.
      * intros ? [=].
      * intros r' [= <-] ?. done.
  - split_and!.
    + split; [intros [? [=]]|intros [(r' & [=] & _) _]].
    + intros ? [=].
    + by intros ? [= <-].
    + intros ? [=].
Qed.

(** ** The scheduler *)

(** What one fetch-and-store does to the state, whatever its outcome. *)
Lemma api_fetch_step env s :
  posted (api_fetch env s).2 = posted s ∧
  gets (api_fetch env s).2 = S (gets s) ∧
  match db s with
  | None => db (api_fetch env s).2 = None
  | Some stored =>
      ∃ added, db (api_fetch env s).2 = Some (stored ++ added) ∧
               Forall (λ d, notified d = false) added ∧
               (NoDup (stored_urls stored) → NoDup (stored_urls (stored ++ added)))
  end.
Proof.
  rewrite api_fetch_eq. simpl.
  destruct (fetch_gazette_posts env s).1 as [posts|e] eqn:Hf; simpl.
  - destruct (db s) as [stored|] eqn:Hdb; simpl; [|done].
    split_and!; [done..|]. eexists. split_and!; [done|apply created_unnotified|].
    intros Hnd. apply stored_urls_after_store; [done|]. by eapply fetch_result_NoDup.
  - split_and!; [done..|].
    destruct (db s) as [stored|]; [|done].
    exists []. by rewrite app_nil_r.
Qed.

Lemma scheduler_cycle_eq env s :
  scheduler_cycle env s = (Ok tt, (api_fetch env s).2).
Proof.
  unfold scheduler_cycle, try_except_M, api_fetch, bind, ret.
  destruct (fetch_gazette_posts env s) as [[posts|e] sf]; [|done].
  by destruct (store_new_posts env posts sf) as [[np|e] s'].
Qed.

(** X6: a turn of the scheduler never raises: a failed fetch and a missing
    database are swallowed alike.  It leaves the state exactly as a
    fetch-now call on the same state does. *)
Theorem scheduler_cycle_swallows_errors env s :
  (scheduler_cycle env s).1 = Ok tt ∧
  (scheduler_cycle env s).2 = (api_fetch env s).2.
Proof. by rewrite scheduler_cycle_eq. Qed.

(** X7: after any number of turns the scheduler has not raised, has made one
    GET per turn, has posted nothing to Telegram, and the collection is the
    old one followed by unnotified additions; stored URLs that were
    pairwise distinct at the start still are. *)
Theorem scheduler_loop_invariants env n : ∀ s,
  (scheduler_loop env n s).1 = Ok tt ∧
  posted (scheduler_loop env n s).2 = posted s ∧
  gets (scheduler_loop env n s).2 = (gets s + n)%nat ∧
  match db s with
  | None => db (scheduler_loop env n s).2 = None
  | Some stored =>
      ∃ added, db (scheduler_loop env n s).2 = Some (stored ++ added) ∧
               Forall (λ d, notified d = false) added ∧
               (NoDup (stored_urls stored) → NoDup (stored_urls (stored ++ added)))
  end.
Proof.
  induction n as [|n IH]; intros s.
  - simpl. rewrite Nat.add_0_r. split_and!; [done..|].
    destruct (db s) as [stored|]; [|done].
    exists []. by rewrite app_nil_r.
  - simpl. unfold bind. rewrite scheduler_cycle_eq.
    destruct (api_fetch_step env s) as (Hp & Hg & Hd).
    destruct (IH (api_fetch env s).2) as (Hr' & Hp' & Hg' & Hd').
    split_and!; [done|congruence|lia|].
    destruct (db s) as [stored|].
    + destruct Hd as (added1 & Hdb1 & Hun1 & Hnd1).
      rewrite Hdb1 in Hd'. destruct Hd' as (added2 & Hdb2 & Hun2 & Hnd2).
      exists (added1 ++ added2). rewrite app_assoc. split_and!; [done| |auto].
      by apply Forall_app.
    + by rewrite Hd in Hd'.
Qed.

(** ** Notify-now as a whole *)

Lemma find_unnotified_unfold n stored :
  find_unnotified n stored = take n (merge_sort created_desc (unnotified stored)).
Proof. done. Qed.

Lemma unnotified_NoDup stored : NoDup (unnotified stored).*1.
Proof.
  unfold unnotified.
  eapply sublist_NoDup; [|apply fmap_sublist, sublist_filter].
  rewrite get_documents_ids. apply NoDup_seq.
Qed.

Lemma elem_of_unnotified stored (d : Found) :
  d ∈ unnotified stored ↔ stored !! d.1 = Some d.2 ∧ notified d.2 = false.
Proof.
  unfold unnotified. rewrite list_elem_of_filter, elem_of_get_documents. tauto.
Qed.

Lemma notified_count_update stored : ∀ i d now,
  stored !! i = Some d → notified d = false →
  notified_count (update_one i now stored) = S (notified_count stored).
Proof.
  unfold notified_count, update_one.
  induction stored as [|x l IH]; intros i d now Hi Hd; [done|].
  destruct i as [|i]; simpl in Hi.
  - injection Hi as ->. simpl. rewrite !filter_cons. simpl.
    rewrite decide_False by (by rewrite Hd). done.
  - change (alter (mark_notified now) (S i) (x :: l))
      with (x :: alter (mark_notified now) i l).
    rewrite !filter_cons. case_decide; simpl; by rewrite (IH _ _ _ Hi Hd).
Qed.

Lemma notified_count_marked env ds : ∀ t stored,
  NoDup ds.*1 →
  (∀ d : Found, d ∈ ds → stored !! d.1 = Some d.2 ∧ notified d.2 = false) →
  notified_count (marked env t ds stored) = (notified_count stored + length ds)%nat.
Proof.
  induction ds as [|d ds IH]; intros t stored Hnd Hin; simpl.
  - by rewrite Nat.add_0_r.
  - simpl in Hnd. apply NoDup_cons in Hnd as [Hd Hnd].
    rewrite IH; [|done|].
    + destruct (Hin d) as [Hl Hn]; [left|].
      rewrite (notified_count_update _ _ _ _ Hl Hn). lia.
    + intros d' Hd'. unfold update_one. rewrite list_lookup_alter_ne.
      * apply Hin. by right.
      * intros Heq. apply Hd. rewrite Heq. by apply list_elem_of_fmap_2.
Qed.

Lemma stored_urls_marked env ds : ∀ t stored,
  stored_urls (marked env t ds stored) = stored_urls stored.
Proof.
  induction ds as [|d ds IH]; intros t stored; [done|].
  simpl. rewrite IH. unfold stored_urls, update_one.
  rewrite (list_fmap_alter doc_url (mark_notified (clock env t)) id); [|apply Forall_forall; intros; reflexivity].
  by apply list_alter_id.
Qed.

(** X8: the outcome of a notify-now call adds up.  It answers [sent], which is
    at most 20 and at most the number of unnotified documents; exactly
    [sent] documents changed from unnotified to notified; the number of
    requests posted is [sent], or [sent + 1] when the last one was refused;
    the stored URLs are what they were and no GET was made. *)
Theorem api_notify_accounts env cfg s stored :
  db s = Some stored →
  ∃ sent s' stored',
    api_notify env cfg s = (Ok sent, s') ∧
    db s' = Some stored' ∧
    (sent ≤ 20)%nat ∧
    (sent ≤ length (unnotified stored))%nat ∧
    notified_count stored' = (notified_count stored + sent)%nat ∧
    length stored' = length stored ∧
    stored_urls stored' = stored_urls stored ∧
    (length (posted s') = (length (posted s) + sent)%nat ∨
     length (posted s') = (length (posted s) + S sent)%nat) ∧
    gets s' = gets s.
Proof.
  intros Hdb. rewrite (api_notify_eq _ _ _ _ Hdb).
  set (ds := reverse (find_unnotified 20 stored)).
  destruct (notify_loop_run env cfg ds 0%nat s) as (k & Hk & -> & _).
  rewrite Hdb. simpl.
  assert (length ds ≤ 20 ∧ length ds ≤ length (unnotified stored))%nat as [H20 Hun].
  { unfold ds. rewrite length_reverse, find_unnotified_unfold, length_take.
    pose proof (Permutation_length (merge_sort_Permutation created_desc (unnotified stored))).
    lia. }
  eexists _, _, _. split_and!; [reflexivity|reflexivity|lia|lia| | | | |done].
  - rewrite notified_count_marked; [by rewrite length_take, Nat.min_l| |].
    + eapply sublist_NoDup; [|apply fmap_sublist, sublist_take].
      unfold ds. rewrite fmap_reverse, reverse_Permutation.
      apply find_unnotified_NoDup.
    + intros d Hd. apply (find_unnotified_elem 20).
      apply (proj1 (elem_of_reverse _ _)).
      eapply elem_of_sublist; [exact Hd|apply sublist_take].
  - apply marked_length.
  - apply stored_urls_marked.
  - simpl. rewrite length_app, length_fmap, length_take.
    destruct (decide (k = length ds)); [left|right]; lia.
Qed.

Lemma notifier_reply_confirmed env cfg hist d :
  always_confirms env → notifier_reply env cfg hist d = Ok true.
Proof.
  intros Hall. unfold notifier_reply. rewrite send_telegram_message_eq. simpl.
  destruct (Hall hist (mkRequest
              ("https://api.telegram.org/bot" +:+ bot_token cfg +:+ "/sendMessage")
              (chat_id cfg) (notification_text d) true)) as (r & -> & ->).
  done.
Qed.

Lemma filter_none {A} (P : A → Prop) `{!∀ x, Decision (P x)} (l : list A) :
  (∀ x, x ∈ l → ¬ P x) → filter P l = [].
Proof.
  induction l as [|x l IH]; intros Hn; [done|].
  rewrite filter_cons_False by (apply Hn; left).
  apply IH. intros y Hy. apply Hn. by right.
Qed.

(** With nothing unnotified in store, notify-now answers 0 and does
    nothing at all. *)
Lemma api_notify_nothing_to_do env cfg s stored :
  db s = Some stored →
  Forall (λ d, notified d = true) stored →
  api_notify env cfg s = (Ok 0%nat, s).
Proof.
  intros Hdb Hall. unfold api_notify. rewrite Hdb.
  assert (unnotified stored = []) as Hnil.
  { apply filter_none. intros d Hd%elem_of_get_documents Hn.
    rewrite Forall_forall in Hall.
    apply list_elem_of_lookup_2, Hall in Hd. congruence. }
  by rewrite find_unnotified_unfold, Hnil.
Qed.

(** X9: when the provider confirms every message and at most 20 documents
    are unnotified, one notify-now call sends one message per unnotified
    document and leaves every stored document notified; the next call
    answers 0 and changes nothing. *)
Theorem api_notify_clears_backlog env cfg s stored :
  always_confirms env →
  db s = Some stored →
  (length (unnotified stored) ≤ 20)%nat →
  ∃ s' stored',
    api_notify env cfg s = (Ok (length (unnotified stored)), s') ∧
    db s' = Some stored' ∧
    Forall (λ d, notified d = true) stored' ∧
    length (posted s') = (length (posted s) + length (unnotified stored))%nat ∧
    api_notify env cfg s' = (Ok 0%nat, s').
Proof.
  intros Hall Hdb Hlen.
  pose proof (Permutation_length (merge_sort_Permutation created_desc (unnotified stored)))
    as Hperm.
  rewrite (api_notify_eq _ _ _ _ Hdb).
  rewrite find_unnotified_unfold, take_ge by lia.
  set (ds := reverse (merge_sort created_desc (unnotified stored))).
  assert (length ds = length (unnotified stored)) as Hds.
  { unfold ds. by rewrite length_reverse. }
  destruct (notify_loop_run env cfg ds 0%nat s) as (k & Hk & Hrun & _ & Hfail).
  assert (k = length ds) as ->.
  { destruct (decide (k = length ds)) as [|Hne]; [done|exfalso].
    destruct (lookup_lt_is_Some_2 ds k) as [d Hd]; [lia|].
    specialize (Hfail d Hd). by rewrite notifier_reply_confirmed in Hfail. }
  rewrite Hrun, Hdb, !take_ge by lia. simpl.
  assert (Forall (λ d, notified d = true) (marked env (ticks s) ds stored)) as Hdone.
  { apply Forall_lookup. intros i d' Hi.
    assert (NoDup ds.*1) as Hnd.
    { unfold ds. rewrite fmap_reverse, reverse_Permutation, merge_sort_Permutation.
      apply unnotified_NoDup. }
    assert (∀ d : Found, d ∈ ds ↔ d ∈ unnotified stored) as Hin.
    { intros d. unfold ds. by rewrite elem_of_reverse, merge_sort_Permutation. }
    destruct (decide (i ∈ ds.*1)) as [Hi'|Hi'].
    - apply list_elem_of_fmap in Hi' as ([i' d] & -> & Hd). simpl in Hi.
      pose proof Hd as [j Hj]%list_elem_of_lookup.
      apply Hin, elem_of_unnotified in Hd as [Hl _]. simpl in Hl.
      pose proof (marked_lookup env ds (ticks s) stored j (i', d) d Hnd Hj Hl) as Hm.
      simpl in Hm. rewrite Hm in Hi. by injection Hi as <-.
    - rewrite marked_lookup_other in Hi by done.
      destruct (notified d') eqn:Hn; [done|exfalso].
      apply Hi'. apply (list_elem_of_fmap_2 fst ds (i, d')).
      apply Hin, elem_of_unnotified. done. }
  eexists _, _. split_and!; [by rewrite Hds|reflexivity|done| |].
  - simpl. rewrite length_app, length_fmap. lia.
  - by apply (api_notify_nothing_to_do _ _ _ (marked env (ticks s) ds stored)).
Qed.

(** X10: with more than 20 unnotified documents a notify-now call leaves the
    oldest ones out: some unnotified document is not among those read, is
    no newer than any document read, and is stored unchanged after the
    call, however the sends went. *)
Theorem api_notify_leaves_oldest_of_backlog env cfg s stored :
  db s = Some stored →
  (20 < length (unnotified stored))%nat →
  ∃ d : Found,
    d ∈ unnotified stored ∧
    (d ∉ find_unnotified 20 stored) ∧
    (∀ d' : Found, d' ∈ find_unnotified 20 stored →
                   (created_at d.2 ≤ created_at d'.2)%Z) ∧
    ∃ stored', db (api_notify env cfg s).2 = Some stored' ∧ stored' !! d.1 = Some d.2.
Proof.
  intros Hdb Hlen.
  set (l := merge_sort created_desc (unnotified stored)).
  assert (l ≡ₚ unnotified stored) as Hperm by apply merge_sort_Permutation.
  assert (StronglySorted created_desc (take 20 l ++ drop 20 l)) as Hsorted.
  { rewrite take_drop. apply StronglySorted_merge_sort; apply _. }
  assert (NoDup ((take 20 l).*1 ++ (drop 20 l).*1)) as Hnd.
  { rewrite <- fmap_app, take_drop. unfold l. rewrite merge_sort_Permutation.
    apply unnotified_NoDup. }
  destruct (lookup_lt_is_Some_2 l 20) as [d Hd].
  { rewrite (Permutation_length Hperm). lia. }
  assert (d ∈ drop 20 l) as Hdrop.
  { apply list_elem_of_lookup. exists 0%nat. by rewrite lookup_drop, Nat.add_0_r. }
  apply NoDup_app in Hnd as (_ & Hdisj & _).
  assert (d.1 ∉ (take 20 l).*1) as Hout.
  { intros Hin. eapply Hdisj; [exact Hin|]. by apply list_elem_of_fmap_2. }
  exists d. rewrite find_unnotified_unfold. fold l. split_and!.
  - rewrite <- Hperm. by eapply list_elem_of_lookup_2.
  - intros Hin. apply Hout. by apply list_elem_of_fmap_2.
  - intros d' Hd'.
    apply (StronglySorted_app_1_elem_of _ _ _ d' d Hsorted Hd' Hdrop).
  - rewrite (api_notify_eq _ _ _ _ Hdb), find_unnotified_unfold. fold l.
    destruct (notify_loop_run env cfg (reverse (take 20 l)) 0%nat s) as (k & _ & -> & _).
    rewrite Hdb. simpl. eexists. split; [reflexivity|].
    rewrite marked_lookup_other.
    + assert (d ∈ unnotified stored) as Hu.
      { rewrite <- Hperm. by eapply list_elem_of_lookup_2. }
      by apply elem_of_unnotified in Hu as [? _].
    + intros Hin. apply Hout.
      assert (d.1 ∈ (reverse (take 20 l)).*1) as Hin'.
      { eapply elem_of_sublist; [exact Hin|apply fmap_sublist, sublist_take]. }
      rewrite fmap_reverse in Hin'. by apply (proj1 (elem_of_reverse _ _)) in Hin'.
Qed.

(** ** Listing the posts *)


(** ** From the page to the chat *)

Lemma filter_all {A} (P : A → Prop) `{!∀ x, Decision (P x)} (l : list A) :
  (∀ x, x ∈ l → P x) → filter P l = l.
Proof.
  induction l as [|x l IH]; intros Hall; [done|].
  rewrite filter_cons_True by (apply Hall; left).
  f_equal. apply IH. intros y Hy. apply Hall. by right.
Qed.

Lemma unnotified_after_store stored created :
  Forall (λ d, notified d = true) stored →
  Forall (λ d, notified d = false) created →
  unnotified (stored ++ created) = imap (λ k d, ((length stored + k)%nat, d)) created.
Proof.
  intros Hst Hcr. unfold unnotified, get_documents.
  rewrite imap_app, filter_app, filter_none, filter_all; [done| |].
  - intros x (k & d & -> & Hk)%elem_of_lookup_imap. simpl.
    rewrite Forall_forall in Hcr. by eapply Hcr, list_elem_of_lookup_2.
  - intros x (k & d & -> & Hk)%elem_of_lookup_imap. simpl.
    rewrite Forall_forall in Hst.
    apply list_elem_of_lookup_2, Hst in Hk. congruence.
Qed.

Lemma imap_compose {A B C} (f : nat → B → C) (g : nat → A → B) (l : list A) :
  imap f (imap g l) = imap (λ k x, f k (g k x)) l.
Proof.
  revert f g. induction l as [|x l IH]; intros f g; [done|].
  simpl. f_equal. apply IH.
Qed.

Lemma StronglySorted_of_lookup {A} (R : relation A) (l : list A) :
  (∀ i j x y, (i < j)%nat → l !! i = Some x → l !! j = Some y → R x y) →
  StronglySorted R l.
Proof.
  induction l as [|a l IH]; intros H; constructor.
  - apply IH. intros i j x y Hij Hi Hj. by apply (H (S i) (S j) x y ltac:(lia)).
  - apply Forall_lookup. intros j y Hj. by apply (H 0%nat (S j) a y ltac:(lia)).
Qed.

(** X12: newly stored posts reach the chat in page order.  Suppose everything
    stored is already notified, the clock is strictly increasing, the
    provider confirms every message, and a fetch-now call stores at most
    20 new posts.  Then the next notify-now call answers the number of new
    posts, and the texts it sent are, in page order, the title and URL of
    each new post. *)
Theorem fetch_then_notify_in_page_order env cfg s stored reply s1 :
  db s = Some stored →
  Forall (λ d, notified d = true) stored →
  (∀ i j, (i < j)%nat → clock env i < clock env j) →
  always_confirms env →
  api_fetch env s = (Ok reply, s1) →
  (new reply ≤ 20)%nat →
  ∃ s2,
    api_notify env cfg s1 = (Ok (new reply), s2) ∧
    req_text <$> drop (length (posted s)) (posted s2) =
      (λ p, title p +:+ NEWLINE +:+ url p) <$> new_posts reply.
Proof.
  intros Hdb Hst Hclock Hall (posts & stored0 & Hf & Hdb0 & Hr & ->)%api_fetch_ok_inv Hnew.
  rewrite Hdb in Hdb0. injection Hdb0 as <-.
  simpl in Hr. subst reply. simpl in *.
  set (inserted := filter (λ p, Some (url p) ∉ stored_urls stored) posts) in *.
  set (created := imap (λ k p, new_doc p (clock env (ticks s + k))) inserted).
  set (news := imap (λ k d, ((length stored + k)%nat, d)) created).
  assert (∀ k x, news !! k = Some x ↔
            ∃ p, inserted !! k = Some p ∧
                 x = ((length stored + k)%nat, new_doc p (clock env (ticks s + k)))) as Hnews.
  { intros k x. unfold news, created. rewrite !list_lookup_imap.
    destruct (inserted !! k) as [p|]; simpl; split.
    - intros [= <-]. eauto.
    - by intros (p' & [= <-] & ->).
    - done.
    - by intros (p' & [=] & _). }
  assert (length news = length inserted) as Hlen.
  { unfold news, created. by rewrite !length_imap. }
  assert (merge_sort created_desc news = reverse news) as Hsort.
  { apply (StronglySorted_unique_strong created_desc).
    - intros x1 x2 Hx1 Hx2 H12 H21.
      rewrite merge_sort_Permutation in Hx1.
      apply (proj1 (elem_of_reverse _ _)) in Hx2.
      apply list_elem_of_lookup in Hx1 as [k1 Hk1].
      apply list_elem_of_lookup in Hx2 as [k2 Hk2].
      assert (k1 = k2) as ->; [|congruence].
      apply Hnews in Hk1 as (p1 & _ & ->). apply Hnews in Hk2 as (p2 & _ & ->).
      unfold created_desc in *. simpl in *.
      destruct (Nat.lt_trichotomy k1 k2) as [Hlt|[->|Hlt]]; [|done|].
      + specialize (Hclock (ticks s + k1)%nat (ticks s + k2)%nat ltac:(lia)). lia.
      + specialize (Hclock (ticks s + k2)%nat (ticks s + k1)%nat ltac:(lia)). lia.
    - apply StronglySorted_merge_sort; apply _.
    - apply StronglySorted_of_lookup. intros i j x y Hij Hi Hj.
      apply reverse_lookup_Some in Hi as [Hi Hil].
      apply reverse_lookup_Some in Hj as [Hj Hjl].
      apply Hnews in Hi as (p1 & _ & ->). apply Hnews in Hj as (p2 & _ & ->).
      unfold created_desc. simpl.
      specialize (Hclock (ticks s + (length news - S j))%nat
                         (ticks s + (length news - S i))%nat ltac:(lia)). lia.
    - by rewrite merge_sort_Permutation, reverse_Permutation. }
  erewrite api_notify_eq by reflexivity.
  rewrite find_unnotified_unfold.
  rewrite (unnotified_after_store stored created Hst) by apply created_unnotified.
  fold news. rewrite Hsort, take_ge by (rewrite length_reverse; lia).
  rewrite reverse_involutive.
  destruct (notify_loop_run env cfg news 0%nat
              (mkState (Some (stored ++ created)) (posted s) (S (gets s))
                       (ticks s + length inserted))) as (k & Hk & -> & _ & Hfail).
  assert (k = length news) as ->.
  { destruct (decide (k = length news)) as [|Hne]; [done|exfalso].
    destruct (lookup_lt_is_Some_2 news k) as [d Hd]; [lia|].
    specialize (Hfail d Hd). by rewrite notifier_reply_confirmed in Hfail. }
  eexists. split; [by rewrite Hlen|]. simpl.
  rewrite drop_app_length, take_ge by lia.
  rewrite <- list_fmap_compose.
  unfold news, created. rewrite !fmap_imap, imap_compose.
  rewrite (imap_ext _ (const (λ p, title p +:+ NEWLINE +:+ url p))) by done.
  apply imap_const.
Qed.

(** ** Titles are trimmed *)

Lemma str_app_cons c a b : String c a +:+ b = String c (a +:+ b).
Proof. done. Qed.

Lemma str_app_nil_r s : s +:+ "" = s.
Proof. induction s as [|c s IH]; [done|]. by rewrite str_app_cons, IH. Qed.

Lemma str_app_assoc a b c : (a +:+ b) +:+ c = a +:+ (b +:+ c).
Proof. induction a as [|x a IH]; [done|]. by rewrite !str_app_cons, IH. Qed.

Lemma str_rev_app_eq s : ∀ acc, String.rev_app s acc = String.rev s +:+ acc.
Proof.
  unfold String.rev. induction s as [|c s IH]; intros acc; [done|].
  simpl. rewrite (IH (String c acc)), (IH (String c "")).
  by rewrite str_app_assoc.
Qed.

Lemma str_rev_cons c s : String.rev (String c s) = String.rev s +:+ String c "".
Proof. unfold String.rev at 1. simpl. apply str_rev_app_eq. Qed.

Lemma str_rev_append a b : String.rev (a +:+ b) = String.rev b +:+ String.rev a.
Proof.
  induction a as [|c a IH].
  - change ("" +:+ b) with b. change (String.rev "") with "". by rewrite str_app_nil_r.
  - change (String c a +:+ b) with (String c (a +:+ b)).
    by rewrite !str_rev_cons, IH, str_app_assoc.
Qed.

Lemma str_rev_involutive s : String.rev (String.rev s) = s.
Proof.
  induction s as [|c s IH]; [done|].
  by rewrite str_rev_cons, str_rev_append, IH.
Qed.

Lemma str_rev_nil s : String.rev s = "" → s = "".
Proof. intros H. by rewrite <- (str_rev_involutive s), H. Qed.

Lemma space1_ascii c : Ascii.is_space c = true → space1 c = true.
Proof.
  destruct c as [[] [] [] [] [] [] [] []]; intros H; try discriminate H; reflexivity.
Qed.

Lemma lstrip_by_facts sp1 sp2 sp3 :
  (∀ c, Ascii.is_space c = true → sp1 c = true) →
  ∀ n s, (String.length s ≤ n)%nat →
    no_leading_space (lstrip_by sp1 sp2 sp3 s) ∧
    ∃ sp, s = sp +:+ lstrip_by sp1 sp2 sp3 s.
Proof.
  intros Hsp. induction n as [|n IH]; intros s Hlen.
  { destruct s; [split; [done|by exists ""]|simpl in Hlen; lia]. }
  destruct s as [|c1 s1]; [split; [done|by exists ""]|].
  simpl in Hlen.
  assert (sp1 c1 = false →
          no_leading_space (String c1 s1) ∧ ∃ sp, String c1 s1 = sp +:+ String c1 s1)
    as Hkeep.
  { intros H1. split; [|by exists ""]. simpl.
    destruct (Ascii.is_space c1) eqn:E; [|done]. apply Hsp in E. congruence. }
  simpl. destruct (sp1 c1) eqn:H1.
  - destruct (IH s1 ltac:(lia)) as [Hc [sp Hs]]. split; [done|].
    exists (String c1 sp). by rewrite str_app_cons, <- Hs.
  - destruct s1 as [|c2 s2]; [by apply Hkeep|].
    simpl in Hlen. destruct (sp2 c1 c2).
    + destruct (IH s2 ltac:(lia)) as [Hc [sp Hs]]. split; [done|].
      exists (String c1 (String c2 sp)). by rewrite !str_app_cons, <- Hs.
    + destruct s2 as [|c3 s3]; [by apply Hkeep|].
      simpl in Hlen. destruct (sp3 c1 c2 c3); [|by apply Hkeep].
      destruct (IH s3 ltac:(lia)) as [Hc [sp Hs]]. split; [done|].
      exists (String c1 (String c2 (String c3 sp))). by rewrite !str_app_cons, <- Hs.
Qed.

Lemma lstrip_clean s : no_leading_space (lstrip s).
Proof. apply (lstrip_by_facts _ _ _ space1_ascii (String.length s)). lia. Qed.

Lemma no_leading_space_app a b :
  a ≠ "" → no_leading_space (a +:+ b) ↔ no_leading_space a.
Proof. by destruct a. Qed.

Lemma strip_clean s :
  no_leading_space (strip s) ∧ no_leading_space (String.rev (strip s)).
Proof.
  unfold strip, rstrip. set (u := lstrip s).
  set (v := lstrip_by _ _ _ (String.rev u)).
  destruct (lstrip_by_facts space1 (λ c2 c1, space2 c1 c2) (λ c3 c2 c1, space3 c1 c2 c3)
              space1_ascii (String.length (String.rev u)) (String.rev u) ltac:(lia))
    as [Hv [sp Hsp]].
  fold v in Hv, Hsp.
  split; [|by rewrite str_rev_involutive].
  destruct (decide (String.rev v = "")) as [->|Hne]; [done|].
  apply (f_equal String.rev) in Hsp.
  rewrite str_rev_involutive, str_rev_append in Hsp.
  apply (no_leading_space_app _ (String.rev sp) Hne).
  rewrite <- Hsp. apply lstrip_clean.
Qed.

(** [strip] on white space beyond the ASCII blanks: U+001F alone, and a
    title between U+00A0 (C2 A0), U+2003 (E2 80 83) and U+3000 (E3 80 80).
    The last byte of "à" (C3 A0) is not taken for a space. *)
Lemma strip_python_white_space :
  let b := fun n : Z => Ascii.ascii_of_nat (Z.to_nat n) in
  strip (String (b 31) "") = "" ∧
  strip (String (b 194) (String (b 160) (String (b 226) (String (b 128) (String (b 131)
          ("Title" +:+ String (b 227) (String (b 128) (String (b 128) ""))))))))
    = "Title" ∧
  strip (String (b 32) (String (b 195) (String (b 160) "")))
    = String (b 195) (String (b 160) "").
Proof. vm_compute. done. Qed.

Lemma concat_no_sep l : String.concat "" l = foldr String.append "" l.
Proof.
  induction l as [|x l IH]; [done|].
  destruct l as [|y l]; simpl in *.
  - by rewrite str_app_nil_r.
  - by rewrite <- IH.
Qed.

Lemma joined_clean (l : list string) :
  Forall (λ x, x ≠ "" ∧ no_leading_space x ∧ no_leading_space (String.rev x)) l →
  no_leading_space (foldr String.append "" l) ∧
  no_leading_space (String.rev (foldr String.append "" l)).
Proof.
  induction 1 as [|x l (Hx & Hh & Ht) _ [IHh IHt]]; [done|].
  simpl. split.
  - by apply no_leading_space_app.
  - rewrite str_rev_append.
    destruct (decide (String.rev (foldr String.append "" l) = "")) as [->|Hne]; [done|].
    by apply no_leading_space_app.
Qed.

Lemma get_text_clean a :
  no_leading_space (get_text a) ∧ no_leading_space (String.rev (get_text a)).
Proof.
  unfold get_text. rewrite concat_no_sep. apply joined_clean.
  apply Forall_forall. intros x [Hx Hin]%list_elem_of_filter.
  apply list_elem_of_fmap in Hin as (y & -> & _).
  split; [|apply strip_clean].
  intros Heq. unfold truthy in Hx. by rewrite Heq in Hx.
Qed.

(** X13: the title of every post that [fetch_gazette_posts] returns is
    trimmed: its first and its last character are not white space. *)
Theorem fetched_titles_trimmed env s posts p :
  (fetch_gazette_posts env s).1 = Ok posts →
  p ∈ posts →
  no_leading_space (title p) ∧ no_leading_space (String.rev (title p)).
Proof.
  intros Hf Hp.
  rewrite fetch_gazette_posts_eq in Hf. simpl in Hf.
  destruct (gazette_site env (gets s)) as [r|]; [|done].
  case_decide; [|done]. simpl in Hf. injection Hf as <-.
  apply elem_of_extract_posts in Hp as [(a & _ & Hc)|(a & _ & Hc)].
  - unfold primary_candidate in Hc.
    destruct (get a "href") as [href|]; [|done].
    destruct (truthy (get_text a) && truthy href); [|done].
    injection Hc as <-. apply get_text_clean.
  - unfold fallback_candidate in Hc.
    destruct (get a "href") as [href|]; [|done].
    destruct (truthy href && truthy (get_text a) && contains DETAIL_PATH href); [|done].
    injection Hc as <-. apply get_text_clean.
Qed.

(** * The further properties on the scenario *)

Lemma demo_fetch_result :
  (fetch_gazette_posts demo_env demo_empty).1 = Ok [demo_post_a; demo_post_b].
Proof. vm_compute. reflexivity. Qed.

Lemma demo_api_fetch_result :
  api_fetch demo_ok_env demo_empty =
  (Ok (mkFetchReply 2 2 [demo_post_a; demo_post_b]), demo_fetched).
Proof. vm_compute. reflexivity. Qed.

Lemma demo_ok_env_confirms : always_confirms demo_ok_env.
Proof. intros hist req. by exists (mkResponse 200 ""). Qed.

Lemma fetched_posts_well_formed_demo :
  title demo_post_a ≠ "" ∧ String.prefix "http" (url demo_post_a) = true.
Proof.
  destruct (fetched_posts_well_formed demo_env demo_empty
              [demo_post_a; demo_post_b] demo_post_a demo_fetch_result)
    as (H1 & H2 & _); [left|done].
Defined.

Lemma fetched_titles_trimmed_demo : no_leading_space (title demo_post_a).
Proof.
  refine (proj1 (fetched_titles_trimmed demo_env demo_empty
                   [demo_post_a; demo_post_b] demo_post_a demo_fetch_result _)).
  left.
Defined.

Lemma api_fetch_keeps_urls_distinct_demo :
  ∃ stored', db (api_fetch demo_env demo_empty).2 = Some stored' ∧
             NoDup (stored_urls stored').
Proof.
  apply (api_fetch_keeps_urls_distinct demo_env demo_empty [] eq_refl).
  apply NoDup_nil_2.
Defined.

Lemma api_fetch_accounts_demo :
  ∃ stored', db demo_fetched = Some stored' ∧ length stored' = 2%nat.
Proof.
  destruct (api_fetch_accounts demo_ok_env demo_empty _ _ demo_api_fetch_result)
    as (posts & stored & stored' & _ & Hdb & Hdb' & _ & _ & _ & Hlen & _).
  injection Hdb as <-. by exists stored'.
Defined.

Lemma api_notify_accounts_demo :
  ∃ sent s', api_notify demo_env demo_cfg demo_pending = (Ok sent, s') ∧ (sent ≤ 20)%nat.
Proof.
  destruct (api_notify_accounts demo_env demo_cfg demo_pending demo_stored eq_refl)
    as (sent & s' & stored' & H & _ & Hle & _).
  by exists sent, s'.
Defined.

Lemma api_notify_clears_backlog_demo :
  ∃ s', api_notify demo_ok_env demo_cfg demo_pending = (Ok 3%nat, s') ∧
        api_notify demo_ok_env demo_cfg s' = (Ok 0%nat, s').
Proof.
  destruct (api_notify_clears_backlog demo_ok_env demo_cfg demo_pending demo_stored
              demo_ok_env_confirms eq_refl)
    as (s' & stored' & H & _ & _ & _ & Hagain).
  - vm_compute. lia.
  - by exists s'.
Defined.

Lemma api_notify_leaves_oldest_of_backlog_demo :
  ∃ d : Found, d ∈ unnotified demo_backlog ∧ d ∉ find_unnotified 20 demo_backlog.
Proof.
  destruct (api_notify_leaves_oldest_of_backlog demo_env demo_cfg demo_backlog_state
              demo_backlog eq_refl) as (d & Hin & Hout & _).
  - vm_compute. lia.
  - by exists d.
Defined.


Lemma fetch_then_notify_in_page_order_demo :
  ∃ s2, api_notify demo_ok_env demo_cfg demo_fetched = (Ok 2%nat, s2).
Proof.
  destruct (fetch_then_notify_in_page_order demo_ok_env demo_cfg demo_empty []
              (mkFetchReply 2 2 [demo_post_a; demo_post_b]) demo_fetched)
    as (s2 & H & _).
  - reflexivity.
  - constructor.
  - intros i j Hij. simpl. lia.
  - apply demo_ok_env_confirms.
  - apply demo_api_fetch_result.
  - simpl. lia.
  - by exists s2.
Defined.
